(** * Hyperdimensional computing core: hypervector algebra and thermometer encoder

    A shallow embedding of [src/hdc/hdc_core.c] and [src/hdc/hdc_encode.c].

    The C functions work on caller-owned buffers of type
    [hv_t = uint8_t[HV_BYTES]] that they receive by address, several of them
    in place ([hdc_bundle], [hdc_permute]) or with the output buffer also
    passed as an input ([hdc_xor (temp, temp, basis)]).  The embedding keeps
    that: a memory maps buffer addresses to byte arrays, every function takes
    the memory and the addresses and gives back the memory it leaves, and two
    arguments may name the same buffer.  A call that C leaves undefined
    (division by zero, overflow of a signed subtraction) has no result. *)

From Stdlib Require Import ZArith Lia List Bool.
From stdpp Require Import base tactics option list numbers functions.

Local Open Scope Z_scope.

(** Linear arithmetic with [/] and [mod] by constants. *)
Ltac solve_divmod := Z.div_mod_to_equations; lia.

(** * The program *)

(** ** Machine integers

    Unsigned C integers are [Z] with the wrap-around written out where a value
    is converted to the narrower type. *)

Definition u8 (x : Z) : Z := x mod 256.
Definition u32 (x : Z) : Z := x mod 4294967296.

(** Unsigned division.  Division by zero is undefined in C: no result. *)
Definition udiv (a b : Z) : option Z :=
  if decide (b = 0) then None else Some (a / b).

Definition u16 (x : Z) : Z := x mod 65536.

(** Subtraction in [int].  [int_bits] is the width of [int] on the platform:
    16 on the ATmega328P, 32 where the unit tests run.  Signed overflow is
    undefined in C: no result. *)
Definition int_sub (int_bits a b : Z) : option Z :=
  if decide (- 2 ^ (int_bits - 1) ≤ a - b < 2 ^ (int_bits - 1))
  then Some (a - b) else None.

(** ** Constants of [hdc_core.h] and [hdc_encode.h] *)

Definition HV_DIMENSIONS : Z := 128.
Definition HV_BYTES : Z := 16.
Definition THERMO_LEVELS : Z := 128.
Definition ADC_MAX : Z := 1023.

(** ** Memory

    [hv_t] is an array of bytes.  A pointer of type [hv_t] (or [const hv_t*],
    counted in units of [hv_t]) is the index of a buffer; [basis_vectors[ch]]
    is the buffer [basis_vectors + ch]. *)

Abbreviation hv_t := (list Z).
Abbreviation ptr := nat.
Abbreviation mem := (ptr → hv_t).

(** A hypervector proper: [HV_BYTES] cells, each holding a [uint8_t]. *)
Definition hv_wf (v : hv_t) : Prop :=
  length v = Z.to_nat HV_BYTES ∧ Forall (λ b, 0 ≤ b < 256) v.

Definition mem_wf (m : mem) : Prop := ∀ p, hv_wf (m p).

(** [p[i]] read.  Every index the sources use is below [HV_BYTES]; a read
    beyond the end of the array, which the sources never make, gives the
    default element of the list library here. *)
Definition load (m : mem) (p : ptr) (i : Z) : Z := m p !!! Z.to_nat i.

(** [p[i] = v]: the value is converted to [uint8_t] by the assignment.  A
    write beyond the end of the array, which the sources never make, is
    dropped here. *)
Definition store (m : mem) (p : ptr) (i v : Z) : mem :=
  <[p := <[Z.to_nat i := u8 v]> (m p)]> m.

(** Bit [k] of a hypervector: byte [k / 8], bit [k mod 8], least significant
    bit first. *)
Definition hv_bit (v : hv_t) (k : Z) : bool :=
  Z.testbit (v !!! Z.to_nat (k / 8)) (k mod 8).

(** ** Loops

    [for (uint8_t i = 0U; i < n; i++) body]: the bound is at most 255 in every
    use, so the counter does not wrap. *)

Fixpoint iter_upto {S : Type} (n : nat) (body : Z → S → S) (s : S) : S :=
  match n with
  | O => s
  | Datatypes.S k => body (Z.of_nat k) (iter_upto k body s)
  end.

Definition for_loop {S : Type} (n : Z) (body : Z → S → S) (s : S) : S :=
  iter_upto (Z.to_nat n) body s.

(** ** <string.h> *)

(** [memset(s, c, n)]: the first [n] bytes of [s] are set to
    [(unsigned char)c]. *)
Definition memset (m : mem) (s : ptr) (c n : Z) : mem :=
  for_loop n (λ i m, store m s i c) m.

(** Modelled from the spec: [memcpy] is the C library's, and its code is not
    part of the sources.  The specification describes the copy as operating
    byte-wise, so [memcpy(dest, src, n)] is the byte copy [dest[i] = src[i]]
    for [i] from 0 to [n - 1], also when [dest] and [src] are the same buffer.
    On two distinct buffers this is what ISO C 7.24.2.1 defines.  For a
    buffer copied onto itself the standard defines nothing, and the byte copy
    is what the library linked with the program is taken to do; buffers are
    whole arrays, so two of them overlap only by being the same one, and then
    a byte copy leaves the same memory in whatever order it goes.  The copy
    has a result for every argument. *)
Definition memcpy (m : mem) (dest src : ptr) (n : Z) : option mem :=
  Some (for_loop n (λ i m, store m dest i (load m src i)) m).

(** ** hdc_core.c *)

Definition hdc_popcount8 (byte : Z) : Z :=
  let byte := u8 (byte - Z.land (Z.shiftr byte 1) 0x55) in
  let byte := u8 (Z.land byte 0x33 + Z.land (Z.shiftr byte 2) 0x33) in
  u8 (Z.land (byte + Z.shiftr byte 4) 0x0F).

Definition hdc_popcount (m : mem) (hv : ptr) : Z :=
  for_loop HV_BYTES (λ i count, u8 (count + hdc_popcount8 (load m hv i))) 0.

Definition hdc_xor (m : mem) (result a b : ptr) : mem :=
  for_loop HV_BYTES
    (λ i m, store m result i (Z.lxor (load m a i) (load m b i))) m.

Definition hdc_or (m : mem) (result a b : ptr) : mem :=
  for_loop HV_BYTES
    (λ i m, store m result i (Z.lor (load m a i) (load m b i))) m.

Definition hdc_and (m : mem) (result a b : ptr) : mem :=
  for_loop HV_BYTES
    (λ i m, store m result i (Z.land (load m a i) (load m b i))) m.

Definition hdc_bundle (m : mem) (memory pattern : ptr) : mem :=
  for_loop HV_BYTES
    (λ i m, store m memory i (Z.lor (load m memory i) (load m pattern i))) m.

Definition hdc_hamming (m : mem) (a b : ptr) : Z :=
  for_loop HV_BYTES
    (λ i distance,
       u8 (distance + hdc_popcount8 (Z.lxor (load m a i) (load m b i)))) 0.

Definition hdc_similarity (m : mem) (a b : ptr) : Z :=
  u8 (HV_DIMENSIONS - hdc_hamming m a b).

Definition hdc_clear (m : mem) (hv : ptr) : mem := memset m hv 0 HV_BYTES.

Definition hdc_fill (m : mem) (hv : ptr) (value : Z) : mem :=
  memset m hv value HV_BYTES.

Definition hdc_copy (m : mem) (dest src : ptr) : option mem :=
  memcpy m dest src HV_BYTES.

(** One turn of the loop of [hdc_permute]. *)
Definition permute_body (temp hv : ptr) (byte_shift bit_shift : Z)
    (i : Z) (m : mem) : mem :=
  let dest_byte := u8 ((i + byte_shift) mod HV_BYTES) in
  if decide (bit_shift = 0) then
    store m temp dest_byte (load m hv i)
  else
    let m := store m temp dest_byte
               (Z.lor (load m temp dest_byte)
                      (Z.shiftl (load m hv i) bit_shift)) in
    let next_byte := u8 ((dest_byte + 1) mod HV_BYTES) in
    store m temp next_byte
      (Z.lor (load m temp next_byte)
             (Z.shiftr (load m hv i) (8 - bit_shift))).

(** [temp] is the address of the automatic array [hv_t temp] of the call: a
    buffer of its own, which the caller's [hv] cannot name. *)
Definition hdc_permute (temp : ptr) (m : mem) (hv : ptr) (shifts : Z)
    : option mem :=
  if decide (shifts = 0) then Some m
  else
    let shifts := u8 (shifts mod HV_DIMENSIONS) in
    let byte_shift := u8 (shifts / 8) in
    let bit_shift := u8 (shifts mod 8) in
    let m := hdc_clear m temp in
    let m := for_loop HV_BYTES (permute_body temp hv byte_shift bit_shift) m in
    hdc_copy m hv temp.

(** ** hdc_encode.c *)

Definition hdc_encode_thermometer (m : mem) (hv : ptr) (value max_value : Z)
    : option mem :=
  let m := hdc_clear m hv in
  if decide (max_value ≤ value) then Some (hdc_fill m hv 0xFF)
  else
    q ← udiv (u32 (u32 value * THERMO_LEVELS)) max_value;
    let level := u8 q in
    let full_bytes := u8 (level / 8) in
    let remaining_bits := u8 (level mod 8) in
    let m := for_loop full_bytes (λ i m, store m hv i 0xFF) m in
    if decide (full_bytes < HV_BYTES ∧ 0 < remaining_bits) then
      Some (store m hv full_bytes (Z.shiftl 1 remaining_bits - 1))
    else Some m.

Definition hdc_encode_adc (m : mem) (hv : ptr) (adc_value : Z) : option mem :=
  hdc_encode_thermometer m hv adc_value ADC_MAX.

(** The [int16_t] arguments are promoted to [int] for the two subtractions,
    whose results are converted to [uint16_t]. *)
Definition hdc_encode_bipolar (int_bits : Z) (m : mem) (hv : ptr)
    (value min_val max_val : Z) : option mem :=
  d ← int_sub int_bits max_val min_val;
  let range := u16 d in
  s ← int_sub int_bits value min_val;
  let shifted := u16 s in
  hdc_encode_thermometer m hv shifted range.

(** One turn of the loop of [hdc_encode_multi_channel]; [values[ch]] has no
    value beyond the end of the array. *)
Definition multi_channel_body (temp result : ptr) (values : list Z)
    (basis_vectors : ptr) (ch : Z) (om : option mem) : option mem :=
  m ← om;
  v ← values !! Z.to_nat ch;
  m ← hdc_encode_adc m temp v;
  let m := hdc_xor m temp temp (basis_vectors + Z.to_nat ch)%nat in
  Some (hdc_bundle m result temp).

(** [temp] is the address of the automatic array [hv_t temp] of the call. *)
Definition hdc_encode_multi_channel (temp : ptr) (m : mem) (result : ptr)
    (values : list Z) (num_channels : Z) (basis_vectors : ptr) : option mem :=
  let m := hdc_clear m result in
  for_loop num_channels
    (multi_channel_body temp result values basis_vectors) (Some m).

(** * Vocabulary of the properties *)

(** The zero vector and the all-ones vector. *)
Definition hv_zero : hv_t := replicate 16 0.
Definition hv_ones : hv_t := replicate 16 0xFF.

(** [zsum n f] is [f 0 + ... + f (n - 1)]. *)
Definition zsum (n : Z) (f : Z → Z) : Z := for_loop n (λ i acc, acc + f i) 0.

(** The number of set bits of a byte. *)
Definition bits8 (b : Z) : Z := zsum 8 (λ j, Z.b2z (Z.testbit b j)).

(** The number of set bits of a hypervector. *)
Definition count_bits (v : hv_t) : Z :=
  zsum HV_DIMENSIONS (λ k, Z.b2z (hv_bit v k)).

(** The number of positions at which two hypervectors differ. *)
Definition hamming_bits (x y : hv_t) : Z :=
  zsum HV_DIMENSIONS (λ k, Z.b2z (xorb (hv_bit x k) (hv_bit y k))).

(** Each bit of [y] is the negation of the same bit of [x]. *)
Definition hv_complements (x y : hv_t) : Prop :=
  ∀ k, 0 ≤ k < HV_DIMENSIONS → hv_bit y k = negb (hv_bit x k).

(** The number of leading set bits of the code of [value]: all of them at
    and above [max_value], [floor (value * 128 / max_value)] below. *)
Definition thermo_level (value max_value : Z) : Z :=
  if decide (max_value ≤ value) then HV_DIMENSIONS
  else value * THERMO_LEVELS / max_value.

(** The channels of a call: each reading [values[ch]] with the basis vector
    [basis_vectors[ch]] it is bound with. *)
Definition channels (m : mem) (values : list Z) (basis_vectors : ptr)
    : list (Z * hv_t) :=
  zip values ((λ ch, m (basis_vectors + ch)%nat) <$> seq 0 (length values)).

(** Bit [k] of the bundle of a list of channels: set when the bound code
    (thermometer code XOR basis vector) of some channel has it set. *)
Definition bundle_bit (chs : list (Z * hv_t)) (k : Z) : bool :=
  existsb (λ c, xorb (k <? thermo_level c.1 ADC_MAX) (hv_bit c.2 k)) chs.

(** ** Concrete memories *)

(** Every buffer zero. *)
Definition mem_zero : mem := λ _, hv_zero.

(** Buffer 0 holds [a], buffer 1 holds [b], every other buffer is zero. *)
Definition mem_of (a b : hv_t) : mem :=
  λ p, match p with O => a | Datatypes.S O => b | _ => hv_zero end.

Definition hv_sample1 : hv_t :=
  [0x12; 0x34; 0x56; 0x78; 0x9A; 0xBC; 0xDE; 0xF0;
   0x21; 0x43; 0x65; 0x87; 0xA9; 0xCB; 0xED; 0x0F].

Definition hv_sample2 : hv_t :=
  [0xED; 0xCB; 0xA9; 0x87; 0x65; 0x43; 0x21; 0x0F;
   0xDE; 0xBC; 0x9A; 0x78; 0x56; 0x34; 0x12; 0xF0].

Definition mem_sample : mem := mem_of hv_sample1 hv_sample2.

(** A memory with a result buffer (0), a scratch buffer (1), a basis array
    of two vectors (2, 3) and the same array in the other order (4, 5). *)
Definition mem_channels : mem :=
  λ p, match p with
       | 2%nat | 5%nat => hv_sample1
       | 3%nat | 4%nat => hv_sample2
       | _ => hv_zero
       end.

(** * The unit tests of the repository, replayed on the embedding *)

Example test_permute_by_8_shifts_one_byte :
  (λ m, (load m 0%nat 0, load m 0%nat 1)) <$>
    hdc_permute 1%nat (store (hdc_clear mem_zero 0%nat) 0%nat 0 0xFF) 0%nat 8
  = Some (0x00, 0xFF).
Proof. vm_compute. reflexivity. Qed.

Example test_permute_small_shift :
  (λ m, load m 0%nat 0) <$>
    hdc_permute 1%nat (store (hdc_clear mem_zero 0%nat) 0%nat 0 0x01) 0%nat 1
  = Some 0x02.
Proof. vm_compute. reflexivity. Qed.

Example test_permute_preserves_popcount :
  (λ m, hdc_popcount m 0%nat) <$>
    hdc_permute 1%nat (hdc_fill mem_zero 0%nat 0xAA) 0%nat 47
  = Some (hdc_popcount (hdc_fill mem_zero 0%nat 0xAA) 0%nat).
Proof. vm_compute. reflexivity. Qed.

Example test_thermo_half_gives_half :
  (λ m, hdc_popcount m 0%nat) <$> hdc_encode_thermometer mem_zero 0%nat 512 1024
  = Some 64.
Proof. vm_compute. reflexivity. Qed.

Example test_thermo_similar_values_are_close :
  (m ← hdc_encode_thermometer mem_zero 0%nat 500 1024;
   m ← hdc_encode_thermometer m 1%nat 510 1024;
   Some (hdc_hamming m 0%nat 1%nat))
  = Some 1.
Proof. vm_compute. reflexivity. Qed.

Example test_bundle_accumulates :
  hdc_bundle (hdc_fill (hdc_fill mem_zero 0%nat 0xF0) 1%nat 0x0F) 0%nat 1%nat
    0%nat
  = hv_ones.
Proof. vm_compute. reflexivity. Qed.

Example test_bipolar_min_max_zero :
  (λ int_bits,
     (λ v, (λ m, hdc_popcount m 0%nat) <$>
             hdc_encode_bipolar int_bits mem_zero 0%nat v (-100) 100)
     <$> [-100; 100; 0]) <$> [16; 32]
  = [[Some 0; Some 128; Some 64]; [Some 0; Some 128; Some 64]].
Proof. vm_compute. reflexivity. Qed.

Example test_multi_channel_zero_values :
  (λ m, hdc_popcount m 0%nat) <$>
    hdc_encode_multi_channel 1%nat
      (hdc_fill (hdc_fill mem_zero 2%nat 0xAA) 3%nat 0x55) 0%nat [0; 0] 2 2%nat
  = Some 128.
Proof. vm_compute. reflexivity. Qed.

(** * Lemmas *)

(** ** Bytes *)

Lemma u8_range x : 0 ≤ u8 x < 256.
Proof. unfold u8. apply Z.mod_pos_bound. lia. Qed.

Lemma u8_small x : 0 ≤ x < 256 → u8 x = x.
Proof. intros. unfold u8. apply Z.mod_small. lia. Qed.

Lemma testbit_u8 x j : 0 ≤ j → Z.testbit (u8 x) j = (j <? 8) && Z.testbit x j.
Proof.
  intros Hj. unfold u8. change 256 with (2 ^ 8).
  destruct (Z.ltb_spec j 8).
  - by rewrite Z.mod_pow2_bits_low.
  - by rewrite Z.mod_pow2_bits_high.
Qed.

Lemma byte_testbit_high b j : 0 ≤ b < 256 → 8 ≤ j → Z.testbit b j = false.
Proof.
  intros Hb Hj. rewrite <- (u8_small b Hb), testbit_u8 by lia.
  destruct (Z.ltb_spec j 8); [lia | done].
Qed.

Lemma byte_eq_bits a b :
  0 ≤ a < 256 → 0 ≤ b < 256 →
  (∀ j, 0 ≤ j < 8 → Z.testbit a j = Z.testbit b j) → a = b.
Proof.
  intros Ha Hb H. apply Z.bits_inj'. intros j Hj.
  destruct (Z.ltb_spec j 8); [apply H; lia |].
  by rewrite !byte_testbit_high.
Qed.

(** ** Memory *)

Lemma hv_wf_length v : hv_wf v → length v = 16%nat.
Proof. by intros [? _]. Qed.

Lemma hv_wf_lookup v i : hv_wf v → 0 ≤ v !!! i < 256.
Proof.
  intros [_ Hv]. destruct (v !! i) as [b|] eqn:E.
  - rewrite (list_lookup_total_correct _ _ _ E).
    by apply (Forall_lookup_1 _ _ _ _ Hv E).
  - rewrite list_lookup_total_alt, E. simpl. lia.
Qed.

Lemma load_range m p i : mem_wf m → 0 ≤ load m p i < 256.
Proof. intros Hm. apply hv_wf_lookup, Hm. Qed.

Lemma hv_wf_insert v i x : hv_wf v → hv_wf (<[i := u8 x]> v).
Proof.
  intros [Hl Hv]. split; [by rewrite length_insert |].
  apply Forall_insert; [done | apply u8_range].
Qed.

Lemma store_wf m p i v : mem_wf m → mem_wf (store m p i v).
Proof.
  intros Hm q. unfold store. destruct (decide (p = q)) as [->|].
  - rewrite fn_lookup_insert. apply hv_wf_insert, Hm.
  - rewrite fn_lookup_insert_ne by done. apply Hm.
Qed.

Lemma store_other m p i v q : q ≠ p → store m p i v q = m q.
Proof. intros. unfold store. by rewrite fn_lookup_insert_ne. Qed.

Lemma load_store_other m p i v q j : q ≠ p → load (store m p i v) q j = load m q j.
Proof. intros. unfold load. by rewrite store_other. Qed.

Lemma load_store_eq m p i v :
  mem_wf m → 0 ≤ i < 16 → load (store m p i v) p i = u8 v.
Proof.
  intros Hm Hi. unfold load, store. rewrite fn_lookup_insert.
  apply list_lookup_total_insert_eq. rewrite (hv_wf_length _ (Hm p)). lia.
Qed.

Lemma load_store_ne m p i v j :
  0 ≤ i → 0 ≤ j → i ≠ j → load (store m p i v) p j = load m p j.
Proof.
  intros Hi Hj Hne. unfold load, store. rewrite fn_lookup_insert.
  apply list_lookup_total_insert_ne. lia.
Qed.

(** Two arrays of [HV_BYTES] cells with the same cells are the same. *)
Lemma hv_ext (x y : hv_t) :
  length x = 16%nat → length y = 16%nat →
  (∀ i, 0 ≤ i < 16 → x !!! Z.to_nat i = y !!! Z.to_nat i) → x = y.
Proof.
  intros Hx Hy H. apply (list_eq_same_length _ _ 16%nat); [done | done |].
  intros i a b Hi Ha Hb.
  specialize (H (Z.of_nat i)). rewrite Nat2Z.id in H.
  rewrite (list_lookup_total_correct _ _ _ Ha) in H.
  rewrite (list_lookup_total_correct _ _ _ Hb) in H. apply H. lia.
Qed.

Lemma mem_ext_at (m m' : mem) p q :
  mem_wf m → mem_wf m' →
  (∀ i, 0 ≤ i < 16 → load m' q i = load m p i) → m' q = m p.
Proof.
  intros Hm Hm' H. apply hv_ext; [apply hv_wf_length, Hm' | apply hv_wf_length, Hm |].
  intros i Hi. apply (H i Hi).
Qed.

Lemma mem_eq_at (m : mem) p (y : hv_t) :
  mem_wf m → length y = 16%nat →
  (∀ i, 0 ≤ i < 16 → load m p i = y !!! Z.to_nat i) → m p = y.
Proof.
  intros Hm Hy H. apply hv_ext; [apply hv_wf_length, Hm | done |].
  intros i Hi. apply (H i Hi).
Qed.

Lemma hv_bit_load m p i j :
  0 ≤ i → 0 ≤ j < 8 → hv_bit (m p) (8 * i + j) = Z.testbit (load m p i) j.
Proof.
  intros Hi Hj. unfold hv_bit, load.
  replace ((8 * i + j) / 8) with i by solve_divmod.
  replace ((8 * i + j) mod 8) with j by solve_divmod.
  done.
Qed.

Lemma hv_bit_alt m p k :
  hv_bit (m p) k = Z.testbit (load m p (k / 8)) (k mod 8).
Proof. done. Qed.

(** ** Loops *)

Lemma for_loop_succ {S} n (body : Z → S → S) s :
  0 ≤ n → for_loop (n + 1) body s = body n (for_loop n body s).
Proof.
  intros Hn. unfold for_loop.
  replace (Z.to_nat (n + 1)) with (Datatypes.S (Z.to_nat n)) by lia.
  simpl. by rewrite Z2Nat.id.
Qed.

Lemma for_loop_zero {S} n (body : Z → S → S) s : n ≤ 0 → for_loop n body s = s.
Proof. intros Hn. unfold for_loop. by replace (Z.to_nat n) with O by lia. Qed.

(** Loop invariant rule. *)
Lemma for_loop_inv {S} (P : Z → S → Prop) n (body : Z → S → S) s :
  0 ≤ n →
  P 0 s →
  (∀ k t, 0 ≤ k < n → P k t → P (k + 1) (body k t)) →
  P n (for_loop n body s).
Proof.
  intros Hn H0 Hstep.
  assert (∀ k : nat, (k ≤ Z.to_nat n)%nat → P (Z.of_nat k) (iter_upto k body s)) as H.
  { induction k as [|k IH]; intros Hk; [done |].
    simpl. replace (Z.of_nat (Datatypes.S k)) with (Z.of_nat k + 1) by lia.
    apply Hstep; [lia | apply IH; lia]. }
  specialize (H (Z.to_nat n)). rewrite Z2Nat.id in H by done. by apply H.
Qed.

(** A loop that writes cell [i] of [r] from cells [i] of [a] and [b], in
    ascending order.  [r] may be [a], [b] or both: turn [i] reads cells [i]
    only, which no earlier turn has written. *)
Lemma bytewise_loop (G : Z → Z → Z) (m : mem) (r a b : ptr) n :
  mem_wf m → 0 ≤ n ≤ 16 →
  let m' := for_loop n (λ i m, store m r i (G (load m a i) (load m b i))) m in
  mem_wf m' ∧
  (∀ q, q ≠ r → m' q = m q) ∧
  (∀ j, 0 ≤ j < 16 →
     load m' r j = if decide (j < n) then u8 (G (load m a j) (load m b j))
                   else load m r j).
Proof.
  intros Hm Hn m'. subst m'.
  pose (P := λ (k : Z) (t : mem),
    mem_wf t ∧ (∀ q, q ≠ r → t q = m q) ∧
    (∀ j, 0 ≤ j < 16 →
       load t r j = if decide (j < k) then u8 (G (load m a j) (load m b j))
                    else load m r j)).
  apply (for_loop_inv P); unfold P; [lia | |].
  - split_and!; [done | done |]. intros j Hj. by rewrite decide_False by lia.
  - intros k t Hk (Ht & Hfr & Hld).
    assert (∀ p, load t p k = load m p k) as Hrd.
    { intros p. destruct (decide (p = r)) as [->|Hp].
      - rewrite Hld by lia. by rewrite decide_False by lia.
      - unfold load. by rewrite Hfr. }
    split_and!.
    + by apply store_wf.
    + intros q Hq. rewrite store_other by done. by apply Hfr.
    + intros j Hj. destruct (decide (j = k)) as [->|Hjk].
      * rewrite load_store_eq by (done || lia).
        rewrite decide_True by lia. by rewrite !Hrd.
      * rewrite load_store_ne by lia. rewrite Hld by done.
        destruct (decide (j < k)), (decide (j < k + 1)); (done || lia).
Qed.

(** ** Bitwise operations on bytes *)

Lemma u8_id_bits z :
  0 ≤ z → (∀ j, 8 ≤ j → Z.testbit z j = false) → u8 z = z.
Proof.
  intros Hz H. apply Z.bits_inj'. intros j Hj. rewrite testbit_u8 by done.
  destruct (Z.ltb_spec j 8); [done | by rewrite H].
Qed.

Lemma u8_lxor x y : 0 ≤ x < 256 → 0 ≤ y < 256 → u8 (Z.lxor x y) = Z.lxor x y.
Proof.
  intros Hx Hy. apply u8_id_bits; [apply Z.lxor_nonneg; lia |].
  intros j Hj. by rewrite Z.lxor_spec, !byte_testbit_high.
Qed.

Lemma u8_lor x y : 0 ≤ x < 256 → 0 ≤ y < 256 → u8 (Z.lor x y) = Z.lor x y.
Proof.
  intros Hx Hy. apply u8_id_bits; [apply Z.lor_nonneg; lia |].
  intros j Hj. by rewrite Z.lor_spec, !byte_testbit_high.
Qed.

(** ** Sums over an index range *)

Lemma zsum_zero f : zsum 0 f = 0.
Proof. done. Qed.

Lemma zsum_succ n f : 0 ≤ n → zsum (n + 1) f = zsum n f + f n.
Proof. intros. unfold zsum. by rewrite for_loop_succ. Qed.

(** Induction on a non-negative bound. *)
Lemma Z_up_ind (P : Z → Prop) :
  P 0 → (∀ k, 0 ≤ k → P k → P (k + 1)) → ∀ n, 0 ≤ n → P n.
Proof.
  intros H0 Hs n Hn. apply (natlike_ind P); [done | | done].
  intros k Hk HP. by apply Hs.
Qed.

Lemma zsum_ext n f g : (∀ i, 0 ≤ i < n → f i = g i) → zsum n f = zsum n g.
Proof.
  destruct (Z.le_gt_cases 0 n) as [Hn|Hn].
  - revert n Hn. apply (Z_up_ind (λ n, (∀ i, 0 ≤ i < n → f i = g i) → zsum n f = zsum n g)).
    + done.
    + intros k Hk IH H. rewrite !zsum_succ by done.
      rewrite IH by (intros; apply H; lia). rewrite H by lia. done.
  - intros _. unfold zsum. by rewrite !for_loop_zero by lia.
Qed.

Lemma zsum_add a b f :
  0 ≤ a → 0 ≤ b → zsum (a + b) f = zsum a f + zsum b (λ i, f (a + i)).
Proof.
  intros Ha Hb. revert b Hb.
  apply (Z_up_ind (λ b, zsum (a + b) f = zsum a f + zsum b (λ i, f (a + i)))).
  - rewrite Z.add_0_r, zsum_zero. lia.
  - intros k Hk IH. rewrite Z.add_assoc, !zsum_succ by lia. rewrite IH. lia.
Qed.

(** A sum over [8 * n] positions, byte by byte. *)
Lemma zsum_bytes n f :
  0 ≤ n → zsum (8 * n) f = zsum n (λ i, zsum 8 (λ j, f (8 * i + j))).
Proof.
  revert n. apply (Z_up_ind (λ n, zsum (8 * n) f = zsum n (λ i, zsum 8 (λ j, f (8 * i + j))))).
  - done.
  - intros k Hk IH. replace (8 * (k + 1)) with (8 * k + 8) by lia.
    rewrite zsum_add, zsum_succ by lia. by rewrite IH.
Qed.

(** Rotating the index leaves the sum as it is. *)
Lemma zsum_rot n k f :
  0 ≤ k < n → zsum n (λ i, f ((i + k) mod n)) = zsum n f.
Proof.
  intros Hk.
  transitivity (zsum ((n - k) + k) (λ i, f ((i + k) mod n))); [f_equal; lia |].
  transitivity (zsum (k + (n - k)) f); [| f_equal; lia].
  rewrite !zsum_add by lia. rewrite Z.add_comm. f_equal.
  - apply zsum_ext. intros i Hi. f_equal.
    replace (n - k + i + k) with (i + 1 * n) by lia.
    rewrite Z.mod_add by lia. apply Z.mod_small. lia.
  - apply zsum_ext. intros i Hi. f_equal.
    rewrite Z.mod_small by lia. lia.
Qed.

Lemma zsum_b2z_bounds n (f : Z → bool) :
  0 ≤ n → 0 ≤ zsum n (λ i, Z.b2z (f i)) ≤ n.
Proof.
  revert n. apply (Z_up_ind (λ n, 0 ≤ zsum n (λ i, Z.b2z (f i)) ≤ n)).
  - rewrite zsum_zero. lia.
  - intros k Hk IH. rewrite zsum_succ by done. destruct (f k); simpl; lia.
Qed.

Lemma zsum_b2z_none n (f : Z → bool) :
  0 ≤ n →
  zsum n (λ i, Z.b2z (f i)) = 0 ↔ ∀ i, 0 ≤ i < n → f i = false.
Proof.
  revert n. apply (Z_up_ind (λ n,
    zsum n (λ i, Z.b2z (f i)) = 0 ↔ ∀ i, 0 ≤ i < n → f i = false)).
  - split; [lia | done].
  - intros k Hk IH. rewrite zsum_succ by done.
    pose proof (zsum_b2z_bounds k f Hk) as Hb. split.
    + intros H i Hi. destruct (decide (i = k)) as [->|].
      * destruct (f k); simpl in *; [lia | done].
      * apply IH; [destruct (f k); simpl in *; lia | lia].
    + intros H. rewrite (H k) by lia. simpl.
      rewrite (proj2 IH); [done | intros; apply H; lia].
Qed.

Lemma zsum_b2z_all n (f : Z → bool) :
  0 ≤ n →
  zsum n (λ i, Z.b2z (f i)) = n ↔ ∀ i, 0 ≤ i < n → f i = true.
Proof.
  revert n. apply (Z_up_ind (λ n,
    zsum n (λ i, Z.b2z (f i)) = n ↔ ∀ i, 0 ≤ i < n → f i = true)).
  - split; [lia | done].
  - intros k Hk IH. rewrite zsum_succ by done.
    pose proof (zsum_b2z_bounds k f Hk) as Hb. split.
    + intros H i Hi. destruct (decide (i = k)) as [->|].
      * destruct (f k); simpl in *; [done | lia].
      * apply IH; [destruct (f k); simpl in *; lia | lia].
    + intros H. rewrite (H k) by lia. simpl.
      rewrite (proj2 IH); [done | intros; apply H; lia].
Qed.

(** The first [l] positions set, the others clear: the sum is [l]. *)
Lemma zsum_below n l :
  0 ≤ l ≤ n → zsum n (λ i, Z.b2z (i <? l)) = l.
Proof.
  intros Hl. replace n with (l + (n - l)) by lia. rewrite zsum_add by lia.
  rewrite (proj2 (zsum_b2z_all l (λ i, i <? l) ltac:(lia))).
  - rewrite (proj2 (zsum_b2z_none (n - l) (λ i, l + i <? l) ltac:(lia))); [lia |].
    intros i Hi. apply Z.ltb_ge. lia.
  - intros i Hi. apply Z.ltb_lt. lia.
Qed.

(** ** Population count *)

Lemma hdc_popcount8_bits8 b : 0 ≤ b < 256 → hdc_popcount8 b = bits8 b.
Proof.
  intros Hb.
  assert (forallb (λ b, hdc_popcount8 b =? bits8 b) (seqZ 0 256) = true) as H
    by (vm_compute; reflexivity).
  rewrite forallb_forall in H. apply Z.eqb_eq, H.
  apply list_elem_of_In, elem_of_seqZ. lia.
Qed.

Lemma bits8_bounds b : 0 ≤ bits8 b ≤ 8.
Proof. apply zsum_b2z_bounds. lia. Qed.

Lemma count_bits_bytes m p :
  count_bits (m p) = zsum 16 (λ i, bits8 (load m p i)).
Proof.
  unfold count_bits, HV_DIMENSIONS. change 128 with (8 * 16).
  rewrite zsum_bytes by lia. apply zsum_ext. intros i Hi.
  apply zsum_ext. intros j Hj. by rewrite hv_bit_load by lia.
Qed.

(** A loop that adds up the population counts of 16 bytes in a [uint8_t]
    does not wrap. *)
Lemma popcount_loop (g : Z → Z) :
  (∀ i, 0 ≤ i < 16 → 0 ≤ g i < 256) →
  for_loop HV_BYTES (λ i count, u8 (count + hdc_popcount8 (g i))) 0
  = zsum 16 (λ i, bits8 (g i)).
Proof.
  intros Hg. unfold HV_BYTES.
  pose (P := λ (k : Z) (c : Z), c = zsum k (λ i, bits8 (g i)) ∧ 0 ≤ c ≤ 8 * k).
  enough (P 16 (for_loop 16 (λ i count, u8 (count + hdc_popcount8 (g i))) 0))
    as [H _] by done.
  apply (for_loop_inv P); unfold P; [lia | split; [done | lia] |].
  intros k c Hk [-> Hc]. rewrite zsum_succ by lia.
  rewrite hdc_popcount8_bits8 by (apply Hg; lia).
  pose proof (bits8_bounds (g k)). rewrite u8_small by lia. lia.
Qed.

Lemma hdc_popcount_count_bits m hv :
  mem_wf m → hdc_popcount m hv = count_bits (m hv).
Proof.
  intros Hm. unfold hdc_popcount. rewrite popcount_loop.
  - by rewrite count_bits_bytes.
  - intros. by apply load_range.
Qed.

Lemma count_bits_bounds v : 0 ≤ count_bits v ≤ 128.
Proof. apply zsum_b2z_bounds. unfold HV_DIMENSIONS. lia. Qed.

(** ** Whole-vector operations *)

Lemma hv_wf_replicate c : 0 ≤ c < 256 → hv_wf (replicate 16 c).
Proof.
  intros Hc. split; [by rewrite length_replicate |].
  by apply Forall_replicate.
Qed.

Lemma lookup_total_replicate16 (c i : Z) :
  0 ≤ i < 16 → (replicate 16 c : hv_t) !!! Z.to_nat i = c.
Proof. intros Hi. apply lookup_total_replicate_2. lia. Qed.

Lemma memset_spec m s c :
  mem_wf m →
  mem_wf (memset m s c HV_BYTES) ∧
  (∀ q, q ≠ s → memset m s c HV_BYTES q = m q) ∧
  memset m s c HV_BYTES s = replicate 16 (u8 c).
Proof.
  intros Hm.
  destruct (bytewise_loop (λ _ _, c) m s s s 16 Hm ltac:(lia)) as (Hwf & Hfr & Hld).
  split_and!; [done | done |].
  apply hv_ext; [apply hv_wf_length, Hwf | by rewrite length_replicate |].
  intros i Hi. rewrite lookup_total_replicate16 by done.
  specialize (Hld i Hi). rewrite decide_True in Hld by lia. apply Hld.
Qed.

Lemma hdc_clear_spec m hv :
  mem_wf m →
  mem_wf (hdc_clear m hv) ∧ (∀ q, q ≠ hv → hdc_clear m hv q = m q) ∧
  hdc_clear m hv hv = hv_zero.
Proof. apply memset_spec. Qed.

Lemma hdc_fill_spec m hv value :
  mem_wf m →
  mem_wf (hdc_fill m hv value) ∧ (∀ q, q ≠ hv → hdc_fill m hv value q = m q) ∧
  hdc_fill m hv value hv = replicate 16 (u8 value).
Proof. apply memset_spec. Qed.

Lemma hdc_xor_spec m result a b :
  mem_wf m →
  mem_wf (hdc_xor m result a b) ∧
  (∀ q, q ≠ result → hdc_xor m result a b q = m q) ∧
  (∀ i, 0 ≤ i < 16 →
     load (hdc_xor m result a b) result i = Z.lxor (load m a i) (load m b i)).
Proof.
  intros Hm.
  destruct (bytewise_loop Z.lxor m result a b 16 Hm ltac:(lia)) as (Hwf & Hfr & Hld).
  split_and!; [done | done |]. intros i Hi.
  unfold hdc_xor, HV_BYTES. rewrite (Hld i Hi), decide_True by lia.
  apply u8_lxor; by apply load_range.
Qed.

Lemma hdc_bundle_spec m memory pattern :
  mem_wf m →
  mem_wf (hdc_bundle m memory pattern) ∧
  (∀ q, q ≠ memory → hdc_bundle m memory pattern q = m q) ∧
  (∀ i, 0 ≤ i < 16 →
     load (hdc_bundle m memory pattern) memory i
     = Z.lor (load m memory i) (load m pattern i)).
Proof.
  intros Hm.
  destruct (bytewise_loop Z.lor m memory memory pattern 16 Hm ltac:(lia))
    as (Hwf & Hfr & Hld).
  split_and!; [done | done |]. intros i Hi.
  unfold hdc_bundle, HV_BYTES. rewrite (Hld i Hi), decide_True by lia.
  apply u8_lor; by apply load_range.
Qed.

(** The copy, whether or not [dest] and [src] are the same buffer. *)
Lemma hdc_copy_bytes m dest src :
  mem_wf m →
  ∃ m', hdc_copy m dest src = Some m' ∧ mem_wf m' ∧
        (∀ q, q ≠ dest → m' q = m q) ∧ m' dest = m src.
Proof.
  intros Hm. unfold hdc_copy, memcpy.
  destruct (bytewise_loop (λ x _, x) m dest src src 16 Hm ltac:(lia))
    as (Hwf & Hfr & Hld).
  eexists. split; [done |]. split_and!; [done | done |].
  apply mem_ext_at; [done | done |]. intros i Hi.
  unfold HV_BYTES. rewrite (Hld i Hi), decide_True by lia.
  apply u8_small. by apply load_range.
Qed.

Lemma hdc_copy_spec m dest src :
  mem_wf m → dest ≠ src →
  ∃ m', hdc_copy m dest src = Some m' ∧ mem_wf m' ∧
        (∀ q, q ≠ dest → m' q = m q) ∧ m' dest = m src.
Proof. intros Hm _. by apply hdc_copy_bytes. Qed.

(** ** Concrete memories *)

Lemma hv_wf_dec v :
  (Nat.eqb (length v) 16 && forallb (λ b, (0 <=? b) && (b <? 256)) v)%bool = true →
  hv_wf v.
Proof.
  intros [Hl Hv]%andb_true_iff. split; [by apply Nat.eqb_eq |].
  apply Forall_forall. intros b Hb.
  rewrite forallb_forall in Hv.
  specialize (Hv b Hb). lia.
Defined.

Lemma mem_of_wf a b : hv_wf a → hv_wf b → mem_wf (mem_of a b).
Proof.
  intros Ha Hb [|[|p]]; [done | done |]. by apply hv_wf_dec.
Defined.

Lemma mem_sample_wf : mem_wf mem_sample.
Proof. apply mem_of_wf; by apply hv_wf_dec. Defined.

Lemma mem_zero_wf : mem_wf mem_zero.
Proof. intros p. by apply hv_wf_dec. Defined.

Lemma mem_channels_wf : mem_wf mem_channels.
Proof.
  intros p. do 6 (destruct p as [|p]; [by apply hv_wf_dec |]).
  by apply hv_wf_dec.
Defined.

(** ** Hamming distance *)

Lemma hamming_bits_bytes m a b :
  hamming_bits (m a) (m b)
  = zsum 16 (λ i, bits8 (Z.lxor (load m a i) (load m b i))).
Proof.
  unfold hamming_bits, HV_DIMENSIONS. change 128 with (8 * 16).
  rewrite zsum_bytes by lia. apply zsum_ext. intros i Hi.
  apply zsum_ext. intros j Hj.
  by rewrite Z.lxor_spec, !hv_bit_load by lia.
Qed.

Lemma hdc_hamming_bits m a b :
  mem_wf m → hdc_hamming m a b = hamming_bits (m a) (m b).
Proof.
  intros Hm. unfold hdc_hamming.
  rewrite (popcount_loop (λ i, Z.lxor (load m a i) (load m b i))).
  - by rewrite hamming_bits_bytes.
  - intros i Hi. simpl. rewrite <- u8_lxor by (by apply load_range).
    apply u8_range.
Qed.

Lemma hamming_bits_bounds x y : 0 ≤ hamming_bits x y ≤ 128.
Proof. apply zsum_b2z_bounds. unfold HV_DIMENSIONS. lia. Qed.

Lemma hamming_bits_sym x y : hamming_bits x y = hamming_bits y x.
Proof. apply zsum_ext. intros. by rewrite xorb_comm. Qed.

(** Hypervectors with the same bits are the same. *)
Lemma hv_bits_ext m a b :
  mem_wf m →
  (∀ k, 0 ≤ k < 128 → hv_bit (m a) k = hv_bit (m b) k) → m a = m b.
Proof.
  intros Hm H. apply (mem_ext_at m m b a); [done | done |].
  intros i Hi. apply byte_eq_bits; [by apply load_range | by apply load_range |].
  intros j Hj. rewrite <- !hv_bit_load by lia. apply H. lia.
Qed.

Lemma hamming_bits_zero m a b :
  mem_wf m → hamming_bits (m a) (m b) = 0 ↔ m a = m b.
Proof.
  intros Hm. unfold hamming_bits, HV_DIMENSIONS.
  rewrite zsum_b2z_none by lia. split.
  - intros H. apply hv_bits_ext; [done |]. intros k Hk.
    specialize (H k Hk). by destruct (hv_bit (m a) k), (hv_bit (m b) k).
  - intros -> k Hk. apply xorb_nilpotent.
Qed.

Lemma hamming_bits_max x y :
  hamming_bits x y = 128 ↔ hv_complements x y.
Proof.
  unfold hamming_bits, hv_complements, HV_DIMENSIONS.
  rewrite zsum_b2z_all by lia.
  split; intros H k Hk; specialize (H k Hk);
    by destruct (hv_bit x k), (hv_bit y k).
Qed.

(** ** Thermometer encoding *)

Lemma hv_bits_eq (x y : hv_t) :
  hv_wf x → hv_wf y →
  (∀ k, 0 ≤ k < 128 → hv_bit x k = hv_bit y k) → x = y.
Proof.
  intros Hx Hy H.
  apply (hv_bits_ext (mem_of x y) 0%nat 1%nat); [by apply mem_of_wf | done].
Qed.

Lemma hv_bit_replicate c k :
  0 ≤ k < 128 → hv_bit (replicate 16 c) k = Z.testbit c (k mod 8).
Proof.
  intros Hk. unfold hv_bit. rewrite lookup_total_replicate16; [done |].
  solve_divmod.
Qed.

Lemma hv_bit_ones k : 0 ≤ k < 128 → hv_bit hv_ones k = true.
Proof.
  intros Hk. unfold hv_ones. rewrite hv_bit_replicate by done.
  change 0xFF with (Z.ones 8). apply Z.ones_spec_low.
  solve_divmod.
Qed.

Lemma hv_bit_zero k : 0 ≤ k < 128 → hv_bit hv_zero k = false.
Proof.
  intros Hk. unfold hv_zero. rewrite hv_bit_replicate by done.
  apply Z.testbit_0_l.
Qed.

Lemma thermo_level_below value max_value :
  0 ≤ value < max_value →
  0 ≤ value * 128 / max_value ≤ 127.
Proof.
  intros H. split.
  - apply Z.div_pos; lia.
  - enough (value * 128 / max_value < 128) by lia.
    apply Z.div_lt_upper_bound; lia.
Qed.

Lemma thermo_level_bounds value max_value :
  0 ≤ value → 0 ≤ thermo_level value max_value ≤ 128.
Proof.
  intros Hv. unfold thermo_level, HV_DIMENSIONS, THERMO_LEVELS.
  case_decide; [lia |].
  pose proof (thermo_level_below value max_value). lia.
Qed.

Lemma hdc_encode_thermometer_bits m hv value max_value :
  mem_wf m → 0 ≤ value < 65536 → 0 ≤ max_value < 65536 →
  ∃ m', hdc_encode_thermometer m hv value max_value = Some m' ∧
        mem_wf m' ∧ (∀ q, q ≠ hv → m' q = m q) ∧
        (∀ k, 0 ≤ k < 128 →
           hv_bit (m' hv) k = (k <? thermo_level value max_value)).
Proof.
  intros Hm Hv Hmax. unfold hdc_encode_thermometer, thermo_level.
  destruct (hdc_clear_spec m hv Hm) as (Hwf1 & Hfr1 & Hz1).
  case_decide as Hsat.
  - destruct (hdc_fill_spec (hdc_clear m hv) hv 0xFF Hwf1) as (Hwf2 & Hfr2 & Hf2).
    eexists. split; [done |]. split_and!; [done | |].
    + intros q Hq. rewrite Hfr2 by done. by apply Hfr1.
    + intros k Hk. rewrite Hf2. change (replicate 16 (u8 255)) with hv_ones.
      rewrite hv_bit_ones by done. symmetry. apply Z.ltb_lt.
      unfold HV_DIMENSIONS. lia.
  - unfold udiv. rewrite decide_False by lia. simpl.
    unfold u32, THERMO_LEVELS. rewrite (Z.mod_small value) by lia.
    rewrite (Z.mod_small (value * 128)) by lia.
    pose proof (thermo_level_below value max_value ltac:(lia)) as Hq.
    set (q := value * 128 / max_value) in *.
    rewrite (u8_small q) by lia.
    assert (0 ≤ q / 8 ≤ 15) as Hfull by solve_divmod.
    assert (0 ≤ q mod 8 < 8) as Hrem by solve_divmod.
    rewrite (u8_small (q / 8)), (u8_small (q mod 8)) by lia.
    destruct (bytewise_loop (λ _ _, 0xFF) (hdc_clear m hv) hv hv hv (q / 8)
                Hwf1 ltac:(lia)) as (Hwf2 & Hfr2 & Hld2).
    simpl in Hwf2, Hfr2, Hld2.
    set (m2 := for_loop (q / 8) (λ i m0, store m0 hv i 255) (hdc_clear m hv)) in *.
    assert (∀ i, 0 ≤ i < 16 → load m2 hv i = if decide (i < q / 8) then 255 else 0)
      as Hld2'.
    { intros i Hi. rewrite Hld2 by done. case_decide; [done |].
      unfold load. rewrite Hz1. unfold hv_zero.
      by rewrite lookup_total_replicate16. }
    assert (∀ k, 0 ≤ k < 128 → k = 8 * (k / 8) + k mod 8 ∧ 0 ≤ k / 8 < 16 ∧ 0 ≤ k mod 8 < 8)
      as Hsplit by (intros; solve_divmod).
    assert (q = 8 * (q / 8) + q mod 8) as Hqsplit by solve_divmod.
    assert (∀ j, 0 ≤ j < 8 → Z.testbit 255 j = true) as H255.
    { intros j Hj. change 255 with (Z.ones 8). apply Z.ones_spec_low. lia. }
    case_decide as Hpart.
    + eexists. split; [done |]. split_and!.
      * by apply store_wf.
      * intros p Hp. rewrite store_other, Hfr2 by done. by apply Hfr1.
      * intros k Hk. destruct (Hsplit k Hk) as (Ek & Hi & Hj).
        rewrite hv_bit_alt. destruct (decide (k / 8 = q / 8)) as [E|NE].
        { rewrite E, load_store_eq by (done || lia).
          change (Z.shiftl 1 (q mod 8) - 1) with (Z.ones (q mod 8)).
          rewrite testbit_u8, Z.testbit_ones_nonneg by lia.
          destruct (Z.ltb_spec (k mod 8) 8), (Z.ltb_spec (k mod 8) (q mod 8)),
            (Z.ltb_spec k q); simpl; (done || lia). }
        rewrite load_store_ne, Hld2' by lia.
        case_decide; [rewrite H255 by done | rewrite Z.testbit_0_l];
          destruct (Z.ltb_spec k q); (done || lia).
    + eexists. split; [done |]. split_and!.
      * done.
      * intros p Hp. rewrite Hfr2 by done. by apply Hfr1.
      * intros k Hk. destruct (Hsplit k Hk) as (Ek & Hi & Hj).
        rewrite hv_bit_alt, Hld2' by lia. unfold HV_BYTES in Hpart.
        case_decide; [rewrite H255 by done | rewrite Z.testbit_0_l];
          destruct (Z.ltb_spec k q); (done || lia).
Qed.

Lemma hv_ones_wf : hv_wf hv_ones.
Proof. by apply hv_wf_replicate. Qed.

Lemma hv_zero_wf : hv_wf hv_zero.
Proof. by apply hv_wf_replicate. Qed.

(** The code of a value has as many set bits as its level. *)
Lemma hdc_encode_thermometer_popcount m hv value max_value :
  mem_wf m → 0 ≤ value < 65536 → 0 ≤ max_value < 65536 →
  ∃ m', hdc_encode_thermometer m hv value max_value = Some m' ∧
        hdc_popcount m' hv = thermo_level value max_value.
Proof.
  intros Hm Hv Hmax.
  destruct (hdc_encode_thermometer_bits m hv value max_value Hm Hv Hmax)
    as (m' & E & Hwf & _ & Hbits).
  exists m'. split; [done |].
  rewrite hdc_popcount_count_bits by done. unfold count_bits, HV_DIMENSIONS.
  rewrite (zsum_ext _ _ (λ k, Z.b2z (k <? thermo_level value max_value))).
  - apply zsum_below. apply thermo_level_bounds. lia.
  - intros k Hk. by rewrite Hbits.
Qed.

(** ** Permutation *)

Lemma permute_loop_bits temp hv byte_shift bit_shift (m : mem) :
  mem_wf m → temp ≠ hv → m temp = hv_zero →
  0 ≤ byte_shift < 16 → 0 ≤ bit_shift < 8 →
  let m' := for_loop HV_BYTES (permute_body temp hv byte_shift bit_shift) m in
  mem_wf m' ∧ (∀ q, q ≠ temp → m' q = m q) ∧
  ∀ d j, 0 ≤ d < 16 → 0 ≤ j < 8 →
    Z.testbit (load m' temp d) j
    = if decide (j < bit_shift)
      then Z.testbit (load m hv ((d - byte_shift - 1) mod 16)) (j + 8 - bit_shift)
      else Z.testbit (load m hv ((d - byte_shift) mod 16)) (j - bit_shift).
Proof.
  intros Hm Hne Hz Hbs Hbit m'. subst m'. unfold HV_BYTES.
  pose (P := λ (k : Z) (t : mem),
    mem_wf t ∧ (∀ q, q ≠ temp → t q = m q) ∧
    ∀ d j, 0 ≤ d < 16 → 0 ≤ j < 8 →
      Z.testbit (load t temp d) j
      = if decide (j < bit_shift)
        then bool_decide ((d - byte_shift - 1) mod 16 < k)
             && Z.testbit (load m hv ((d - byte_shift - 1) mod 16)) (j + 8 - bit_shift)
        else bool_decide ((d - byte_shift) mod 16 < k)
             && Z.testbit (load m hv ((d - byte_shift) mod 16)) (j - bit_shift)).
  enough (P 16 (for_loop 16 (permute_body temp hv byte_shift bit_shift) m))
    as (Hwf & Hfr & Hb).
  { split_and!; [done | done |]. intros d j Hd Hj. rewrite Hb by done.
    case_decide; rewrite bool_decide_eq_true_2; (done || solve_divmod). }
  apply (for_loop_inv P); unfold P; [lia | |].
  - split_and!; [done | done |]. intros d j Hd Hj.
    unfold load at 1. rewrite Hz. unfold hv_zero.
    rewrite lookup_total_replicate16, Z.testbit_0_l by done.
    case_decide; rewrite bool_decide_eq_false_2; (done || solve_divmod).
  - intros k t Hk (Ht & Hfr & Hb). unfold permute_body, HV_BYTES.
    assert (load t hv k = load m hv k) as Hrd
      by (unfold load; by rewrite (Hfr hv)).
    assert (∀ i v q, q ≠ temp → store t temp i v q = m q) as Hfr1
      by (intros; rewrite store_other by done; by apply Hfr).
    rewrite Hrd. set (x := load m hv k).
    assert (0 ≤ x < 256) as Hx by (by apply load_range).
    set (dest := (k + byte_shift) mod 16).
    assert (0 ≤ dest < 16) as Hdest by (subst dest; solve_divmod).
    rewrite (u8_small dest) by lia.
    set (next := (dest + 1) mod 16).
    assert (0 ≤ next < 16) as Hnext by (subst next; solve_divmod).
    rewrite (u8_small next) by lia.
    assert (next ≠ dest) as Hnd by (subst next; solve_divmod).
    assert (∀ d, 0 ≤ d < 16 → ((d - byte_shift) mod 16 = k ↔ d = dest)) as HA
      by (intros; subst dest; solve_divmod).
    assert (∀ d, 0 ≤ d < 16 → ((d - byte_shift - 1) mod 16 = k ↔ d = next)) as HB
      by (intros; subst next dest; solve_divmod).
    case_decide as Hbit0.
    + split_and!.
      * by apply store_wf.
      * apply Hfr1.
      * intros d j Hd Hj. rewrite decide_False by lia.
        destruct (decide (d = dest)) as [->|Hdd].
        { rewrite load_store_eq, (u8_small x) by done.
          rewrite (proj2 (HA dest Hdest) eq_refl).
          rewrite bool_decide_eq_true_2 by lia. subst bit_shift.
          by rewrite Z.sub_0_r. }
        rewrite load_store_ne, Hb by lia. rewrite decide_False by lia.
        f_equal. apply bool_decide_ext. specialize (HA d Hd). lia.
    + rewrite (load_store_other t temp dest _ hv k) by done.
      rewrite (load_store_ne t temp dest _ next) by lia.
      fold x. rewrite Hrd. fold x.
      set (t1 := store t temp dest (Z.lor (load t temp dest) (x ≪ bit_shift))).
      assert (mem_wf t1) as Ht1 by (by apply store_wf).
      split_and!.
      * by apply store_wf.
      * intros q Hq. rewrite store_other by done. by apply Hfr1.
      * intros d j Hd Hj. specialize (HA d Hd). specialize (HB d Hd).
        destruct (decide (d = next)) as [->|Hdn]; [| destruct (decide (d = dest)) as [->|Hdd]].
        { rewrite load_store_eq by done.
          rewrite testbit_u8, Z.lor_spec, Z.shiftr_spec, Hb by lia.
          replace (j <? 8) with true by (symmetry; apply Z.ltb_lt; lia).
          replace (j + (8 - bit_shift)) with (j + 8 - bit_shift) by lia.
          case_decide.
          - rewrite (proj2 HB eq_refl). fold x.
            rewrite bool_decide_eq_false_2, bool_decide_eq_true_2 by lia. done.
          - rewrite (byte_testbit_high x) by lia. rewrite orb_false_r. simpl.
            f_equal. apply bool_decide_ext. lia. }
        { rewrite load_store_ne by lia. subst t1.
          rewrite load_store_eq by done.
          rewrite testbit_u8, Z.lor_spec, Z.shiftl_spec, Hb by lia.
          replace (j <? 8) with true by (symmetry; apply Z.ltb_lt; lia).
          case_decide.
          - rewrite (Z.testbit_neg_r x) by lia. rewrite orb_false_r. simpl.
            f_equal. apply bool_decide_ext. lia.
          - rewrite (proj2 HA eq_refl). fold x.
            rewrite bool_decide_eq_false_2, bool_decide_eq_true_2 by lia. done. }
        rewrite load_store_ne by lia. subst t1. rewrite load_store_ne by lia.
        rewrite Hb by done. case_decide; f_equal; apply bool_decide_ext; lia.
Qed.

(** Where position [k] goes under a rotation by [s]: byte [d], bit [j], and
    back from there to the byte and the bit it came from. *)
Lemma rot_index k s :
  0 ≤ k < 128 → 0 ≤ s < 128 →
  ∃ d j, 0 ≤ d < 16 ∧ 0 ≤ j < 8 ∧ (k + s) mod 128 = 8 * d + j ∧
    if decide (j < s mod 8)
    then (d - s / 8 - 1) mod 16 = k / 8 ∧ j + 8 - s mod 8 = k mod 8
    else (d - s / 8) mod 16 = k / 8 ∧ j - s mod 8 = k mod 8.
Proof.
  intros Hk Hs.
  pose proof (Z.div_mod k 8 ltac:(lia)) as Ek.
  pose proof (Z.mod_pos_bound k 8 ltac:(lia)) as Hj0.
  pose proof (Z.div_mod s 8 ltac:(lia)) as Es.
  pose proof (Z.mod_pos_bound s 8 ltac:(lia)) as Hbit.
  set (i := k / 8) in *. set (j0 := k mod 8) in *.
  set (bs := s / 8) in *. set (bit := s mod 8) in *.
  assert (0 ≤ i < 16) as Hi by lia. assert (0 ≤ bs < 16) as Hbs by lia.
  destruct (decide (j0 + bit < 8)) as [Hc|Hc].
  - exists ((i + bs) mod 16), (j0 + bit).
    pose proof (Z.div_mod (i + bs) 16 ltac:(lia)) as E.
    pose proof (Z.mod_pos_bound (i + bs) 16 ltac:(lia)) as Hd.
    split_and!; try lia.
    + symmetry. apply (Z.mod_unique_pos _ _ ((i + bs) / 16)); lia.
    + rewrite decide_False by lia. split; [| lia].
      symmetry. apply (Z.mod_unique_pos _ _ (- ((i + bs) / 16))); lia.
  - exists ((i + bs + 1) mod 16), (j0 + bit - 8).
    pose proof (Z.div_mod (i + bs + 1) 16 ltac:(lia)) as E.
    pose proof (Z.mod_pos_bound (i + bs + 1) 16 ltac:(lia)) as Hd.
    split_and!; try lia.
    + symmetry. apply (Z.mod_unique_pos _ _ ((i + bs + 1) / 16)); lia.
    + rewrite decide_True by lia. split; [| lia].
      symmetry. apply (Z.mod_unique_pos _ _ (- ((i + bs + 1) / 16))); lia.
Qed.

Lemma hdc_permute_bits temp (m : mem) hv shifts :
  mem_wf m → temp ≠ hv → 0 ≤ shifts < 256 →
  ∃ m', hdc_permute temp m hv shifts = Some m' ∧ mem_wf m' ∧
        (∀ q, q ≠ hv → q ≠ temp → m' q = m q) ∧
        (∀ k, 0 ≤ k < 128 →
           hv_bit (m' hv) ((k + shifts) mod 128) = hv_bit (m hv) k).
Proof.
  intros Hm Hne Hs. unfold hdc_permute. case_decide as Hs0.
  { exists m. split_and!; [done | done | done |]. intros k Hk. subst shifts.
    by rewrite Z.add_0_r, Z.mod_small by lia. }
  unfold HV_DIMENSIONS.
  set (s := shifts mod 128).
  assert (0 ≤ s < 128) as Hs' by (subst s; solve_divmod).
  rewrite (u8_small s) by lia.
  assert (0 ≤ s / 8 < 16) as Hbs by solve_divmod.
  assert (0 ≤ s mod 8 < 8) as Hbit by solve_divmod.
  rewrite (u8_small (s / 8)), (u8_small (s mod 8)) by lia.
  destruct (hdc_clear_spec m temp Hm) as (Hwf1 & Hfr1 & Hz1).
  destruct (permute_loop_bits temp hv (s / 8) (s mod 8) (hdc_clear m temp)
              Hwf1 Hne Hz1 Hbs Hbit) as (Hwf2 & Hfr2 & Hb2).
  set (m2 := for_loop HV_BYTES (permute_body temp hv (s / 8) (s mod 8))
               (hdc_clear m temp)) in *.
  destruct (hdc_copy_spec m2 hv temp Hwf2 ltac:(done)) as (m' & E & Hwf' & Hfr' & Hcp).
  exists m'. split_and!; [done | done | |].
  - intros q Hq Hqt. rewrite Hfr', Hfr2 by done. by apply Hfr1.
  - intros k Hk. rewrite Hcp.
    replace ((k + shifts) mod 128) with ((k + s) mod 128)
      by (subst s; by rewrite Z.add_mod_idemp_r).
    destruct (rot_index k s Hk Hs') as (d & j & Hd & Hj & -> & Hback).
    rewrite hv_bit_load, (hv_bit_alt m hv k) by lia.
    assert (∀ i, load (hdc_clear m temp) hv i = load m hv i) as Hrd
      by (intros; unfold load; by rewrite Hfr1).
    rewrite Hb2 by done. rewrite !Hrd.
    by case_decide; destruct Hback as [-> ->].
Qed.

(** ** Multi-channel encoding *)

Lemma hdc_xor_bits m result a b k :
  mem_wf m → 0 ≤ k < 128 →
  hv_bit (hdc_xor m result a b result) k = xorb (hv_bit (m a) k) (hv_bit (m b) k).
Proof.
  intros Hm Hk. destruct (hdc_xor_spec m result a b Hm) as (_ & _ & Hld).
  rewrite !hv_bit_alt, Hld by solve_divmod.
  apply Z.lxor_spec.
Qed.

Lemma hdc_bundle_bits m memory pattern k :
  mem_wf m → 0 ≤ k < 128 →
  hv_bit (hdc_bundle m memory pattern memory) k
  = hv_bit (m memory) k || hv_bit (m pattern) k.
Proof.
  intros Hm Hk. destruct (hdc_bundle_spec m memory pattern Hm) as (_ & _ & Hld).
  rewrite !hv_bit_alt, Hld by solve_divmod.
  apply Z.lor_spec.
Qed.

Lemma channels_lookup m values basis_vectors (ch : nat) v :
  values !! ch = Some v →
  channels m values basis_vectors !! ch = Some (v, m (basis_vectors + ch)%nat).
Proof.
  intros Hv. unfold channels. rewrite lookup_zip_with, Hv. simpl.
  rewrite list_lookup_fmap, lookup_seq_lt by (by eapply lookup_lt_Some).
  done.
Qed.

Lemma channels_length m values basis_vectors :
  length (channels m values basis_vectors) = length values.
Proof.
  unfold channels. rewrite length_zip_with, length_fmap, length_seq. lia.
Qed.

Lemma bundle_bit_snoc chs c k :
  bundle_bit (chs ++ [c]) k
  = bundle_bit chs k || xorb (k <? thermo_level c.1 ADC_MAX) (hv_bit c.2 k).
Proof. unfold bundle_bit. rewrite existsb_app. simpl. by rewrite orb_false_r. Qed.

Lemma bundle_bit_perm chs chs' k :
  chs ≡ₚ chs' → bundle_bit chs k = bundle_bit chs' k.
Proof.
  unfold bundle_bit. induction 1 as [| c l l' _ IH | c c' l | l l' l'' _ IH1 _ IH2];
    simpl.
  - done.
  - by rewrite IH.
  - by rewrite !orb_assoc, (orb_comm (xorb _ _)).
  - by rewrite IH1.
Qed.

(** One turn of the channel loop: the bound code of channel [ch] is bundled
    into [result]; only [temp] and [result] are written. *)
Lemma multi_channel_body_bits temp result values basis_vectors (m t : mem)
    (ch : Z) v :
  mem_wf t → temp ≠ result →
  (basis_vectors + Z.to_nat ch)%nat ≠ temp →
  (basis_vectors + Z.to_nat ch)%nat ≠ result →
  values !! Z.to_nat ch = Some v → 0 ≤ v < 65536 →
  ∃ t', multi_channel_body temp result values basis_vectors ch (Some t) = Some t' ∧
    mem_wf t' ∧ (∀ q, q ≠ temp → q ≠ result → t' q = t q) ∧
    ∀ k, 0 ≤ k < 128 →
      hv_bit (t' result) k
      = hv_bit (t result) k
        || xorb (k <? thermo_level v ADC_MAX)
                (hv_bit (t (basis_vectors + Z.to_nat ch)%nat) k).
Proof.
  intros Ht Htr Hbt Hbr Hv Hrange. unfold multi_channel_body. simpl.
  rewrite Hv. simpl. unfold hdc_encode_adc.
  destruct (hdc_encode_thermometer_bits t temp v ADC_MAX Ht Hrange)
    as (t1 & -> & Hwf1 & Hfr1 & Hb1); [unfold ADC_MAX; lia |]. simpl.
  set (b := (basis_vectors + Z.to_nat ch)%nat) in *.
  destruct (hdc_xor_spec t1 temp temp b Hwf1) as (Hwf2 & Hfr2 & _).
  destruct (hdc_bundle_spec (hdc_xor t1 temp temp b) result temp Hwf2)
    as (Hwf3 & Hfr3 & _).
  eexists. split; [done |]. split_and!; [done | |].
  - intros q Hqt Hqr. rewrite Hfr3, Hfr2 by done. by apply Hfr1.
  - intros k Hk. rewrite hdc_bundle_bits, hdc_xor_bits by done.
    rewrite (Hfr2 result), (Hfr1 result), (Hfr1 b), Hb1 by (done || lia). done.
Qed.

Lemma hdc_encode_multi_channel_bits temp (m : mem) result values num_channels
    basis_vectors :
  mem_wf m → temp ≠ result →
  0 ≤ num_channels < 256 → Z.of_nat (length values) = num_channels →
  Forall (λ v, 0 ≤ v < 65536) values →
  (∀ ch, (ch < length values)%nat →
     (basis_vectors + ch)%nat ≠ temp ∧ (basis_vectors + ch)%nat ≠ result) →
  ∃ m', hdc_encode_multi_channel temp m result values num_channels basis_vectors
          = Some m' ∧
    mem_wf m' ∧ (∀ q, q ≠ temp → q ≠ result → m' q = m q) ∧
    ∀ k, 0 ≤ k < 128 →
      hv_bit (m' result) k = bundle_bit (channels m values basis_vectors) k.
Proof.
  intros Hm Htr Hn Hlen Hvals Hdisj. unfold hdc_encode_multi_channel.
  destruct (hdc_clear_spec m result Hm) as (Hwf0 & Hfr0 & Hz0).
  set (chs := channels m values basis_vectors).
  pose (P := λ (i : Z) (ot : option mem),
    ∃ t, ot = Some t ∧ mem_wf t ∧ (∀ q, q ≠ temp → q ≠ result → t q = m q) ∧
         ∀ k, 0 ≤ k < 128 →
           hv_bit (t result) k = bundle_bit (take (Z.to_nat i) chs) k).
  enough (P num_channels
            (for_loop num_channels
               (multi_channel_body temp result values basis_vectors)
               (Some (hdc_clear m result)))) as (m' & E & Hwf & Hfr & Hb).
  { exists m'. split_and!; [done | done | done |]. intros k Hk.
    rewrite Hb by done. f_equal. apply take_ge.
    unfold chs. rewrite channels_length. lia. }
  apply (for_loop_inv P); unfold P; [lia | |].
  - exists (hdc_clear m result). split_and!; [done | done | |].
    + intros q _ Hq. by apply Hfr0.
    + intros k Hk. rewrite Hz0. by apply hv_bit_zero.
  - intros i ot Hi (t & -> & Hwf & Hfr & Hb).
    destruct (lookup_lt_is_Some_2 values (Z.to_nat i) ltac:(lia)) as [v Hv].
    destruct (Hdisj (Z.to_nat i) ltac:(lia)) as [Hbt Hbr].
    destruct (multi_channel_body_bits temp result values basis_vectors m t i v
                Hwf Htr Hbt Hbr Hv) as (t' & E & Hwf' & Hfr' & Hb').
    { by apply (Forall_lookup_1 _ _ _ _ Hvals Hv). }
    exists t'. split_and!; [done | done | |].
    + intros q Hqt Hqr. rewrite Hfr' by done. by apply Hfr.
    + intros k Hk. rewrite Hb', Hb, Hfr by done.
      replace (Z.to_nat (i + 1)) with (S (Z.to_nat i)) by lia.
      rewrite (take_S_r chs _ (v, m (basis_vectors + Z.to_nat i)%nat))
        by (by apply channels_lookup).
      by rewrite bundle_bit_snoc.
Qed.

(** * The claims *)

(** C1.  With [max_value > 0], whatever the output buffer holds before the
    call: at and above [max_value] the output is the all-ones vector; below
    it, [level = floor (value * 128 / max_value)] lies in [0, 127], is what
    the widened arithmetic of the code computes, and bit [k] of the output is
    set exactly when [k < level]; the code of 0 is the zero vector and the
    code of [max_value] the all-ones vector. *)
Theorem hdc_encode_thermometer_spec (m : mem) (hv : ptr) (value max_value : Z) :
  mem_wf m → 0 ≤ value < 65536 → 0 < max_value < 65536 →
  ∃ m', hdc_encode_thermometer m hv value max_value = Some m' ∧
    (max_value ≤ value → m' hv = hv_ones) ∧
    (value < max_value →
       0 ≤ value * 128 / max_value ≤ 127 ∧
       ∀ k, 0 ≤ k < 128 → hv_bit (m' hv) k = (k <? value * 128 / max_value)) ∧
    (value = 0 → m' hv = hv_zero) ∧
    (value = max_value → m' hv = hv_ones).
Proof.
  intros Hm Hv Hmax.
  destruct (hdc_encode_thermometer_bits m hv value max_value Hm Hv ltac:(lia))
    as (m' & E & Hwf & _ & Hbits).
  unfold thermo_level, HV_DIMENSIONS, THERMO_LEVELS in Hbits.
  assert (max_value ≤ value → m' hv = hv_ones) as Hsat.
  { intros Hge. apply hv_bits_eq; [apply Hwf | apply hv_ones_wf |].
    intros k Hk. rewrite Hbits, hv_bit_ones, decide_True by done.
    apply Z.ltb_lt. lia. }
  exists m'. split_and!; [done | done | | | intros; apply Hsat; lia].
  - intros Hlt. split; [apply thermo_level_below; lia |].
    intros k Hk. by rewrite Hbits, decide_False by lia.
  - intros ->. apply hv_bits_eq; [apply Hwf | apply hv_zero_wf |].
    intros k Hk. rewrite Hbits, hv_bit_zero, decide_False by lia.
    apply Z.ltb_ge. rewrite Z.mul_0_l, Z.div_0_l; lia.
Qed.

Lemma hdc_encode_thermometer_spec_witness :
  mem_wf mem_sample ∧ 0 ≤ 500 < 65536 ∧ 0 < 1024 < 65536 ∧
  ∃ m', hdc_encode_thermometer mem_sample 0%nat 500 1024 = Some m' ∧
    (1024 ≤ 500 → m' 0%nat = hv_ones) ∧
    (500 < 1024 →
       0 ≤ 500 * 128 / 1024 ≤ 127 ∧
       ∀ k, 0 ≤ k < 128 → hv_bit (m' 0%nat) k = (k <? 500 * 128 / 1024)) ∧
    (500 = 0 → m' 0%nat = hv_zero) ∧
    (500 = 1024 → m' 0%nat = hv_ones).
Proof.
  refine (conj mem_sample_wf (conj _ (conj _
    (hdc_encode_thermometer_spec mem_sample 0%nat 500 1024 mem_sample_wf _ _))));
    lia.
Defined.

(** C2.  [hdc_permute] rotates the 128 bits of [hv] by [shifts mod 128]
    positions towards the higher indices: the bit at position [k] of the
    input is the bit at position [(k + shifts) mod 128] of the output, whatever
    the byte either position lies in; a shift by 0 or by 128 leaves [hv] as it
    is. *)
Theorem hdc_permute_rotates (temp : ptr) (m : mem) (hv : ptr) (shifts : Z) :
  mem_wf m → temp ≠ hv → 0 ≤ shifts < 256 →
  ∃ m', hdc_permute temp m hv shifts = Some m' ∧
    (∀ k, 0 ≤ k < 128 →
       hv_bit (m' hv) ((k + shifts mod 128) mod 128) = hv_bit (m hv) k) ∧
    (∀ k, 0 ≤ k < 128 →
       hv_bit (m' hv) ((k + shifts) mod 128) = hv_bit (m hv) k) ∧
    (shifts = 0 ∨ shifts = 128 → m' hv = m hv).
Proof.
  intros Hm Hne Hs.
  destruct (hdc_permute_bits temp m hv shifts Hm Hne Hs)
    as (m' & E & Hwf & _ & Hbits).
  exists m'. split_and!; [done | | done |].
  - intros k Hk. rewrite Z.add_mod_idemp_r by lia. by apply Hbits.
  - intros H0. apply hv_bits_eq; [apply Hwf | apply Hm |]. intros k Hk.
    rewrite <- (Hbits k Hk). f_equal.
    destruct H0 as [-> | ->].
    + rewrite Z.add_0_r. symmetry. apply Z.mod_small. lia.
    + replace (k + 128) with (k + 1 * 128) by lia.
      rewrite Z.mod_add by lia. symmetry. apply Z.mod_small. lia.
Qed.

Lemma hdc_permute_rotates_witness :
  mem_wf mem_sample ∧ (2 ≠ 0)%nat ∧ 0 ≤ 37 < 256 ∧
  ∃ m', hdc_permute 2%nat mem_sample 0%nat 37 = Some m' ∧
    (∀ k, 0 ≤ k < 128 →
       hv_bit (m' 0%nat) ((k + 37 mod 128) mod 128) = hv_bit (mem_sample 0%nat) k) ∧
    (∀ k, 0 ≤ k < 128 →
       hv_bit (m' 0%nat) ((k + 37) mod 128) = hv_bit (mem_sample 0%nat) k) ∧
    (37 = 0 ∨ 37 = 128 → m' 0%nat = mem_sample 0%nat).
Proof.
  refine (conj mem_sample_wf (conj _ (conj _
    (hdc_permute_rotates 2%nat mem_sample 0%nat 37 mem_sample_wf _ _)))); lia.
Defined.

(** C3.  The population count of a hypervector is the same before and after
    [hdc_permute], for every shift. *)
Theorem hdc_permute_popcount (temp : ptr) (m : mem) (hv : ptr) (shifts : Z) :
  mem_wf m → temp ≠ hv → 0 ≤ shifts < 256 →
  ∃ m', hdc_permute temp m hv shifts = Some m' ∧
        hdc_popcount m' hv = hdc_popcount m hv.
Proof.
  intros Hm Hne Hs.
  destruct (hdc_permute_bits temp m hv shifts Hm Hne Hs)
    as (m' & E & Hwf & _ & Hbits).
  exists m'. split; [done |].
  rewrite !hdc_popcount_count_bits by done. unfold count_bits, HV_DIMENSIONS.
  rewrite <- (zsum_rot 128 (shifts mod 128) (λ k, Z.b2z (hv_bit (m' hv) k)))
    by solve_divmod.
  apply zsum_ext. intros k Hk. simpl.
  rewrite Z.add_mod_idemp_r by lia. by rewrite Hbits.
Qed.

Lemma hdc_permute_popcount_witness :
  mem_wf mem_sample ∧ (2 ≠ 0)%nat ∧ 0 ≤ 47 < 256 ∧
  ∃ m', hdc_permute 2%nat mem_sample 0%nat 47 = Some m' ∧
        hdc_popcount m' 0%nat = hdc_popcount mem_sample 0%nat.
Proof.
  refine (conj mem_sample_wf (conj _ (conj _
    (hdc_permute_popcount 2%nat mem_sample 0%nat 47 mem_sample_wf _ _)))); lia.
Defined.

(** C4.  Thermometer encoding is monotone: for [max_value > 0] and
    [v1 < v2 ≤ max_value], the code of [v1] has at most as many set bits as
    the code of [v2]. *)
Theorem hdc_encode_thermometer_monotone
    (m1 m2 : mem) (hv1 hv2 : ptr) (v1 v2 max_value : Z) :
  mem_wf m1 → mem_wf m2 →
  0 ≤ v1 → v1 < v2 → v2 ≤ max_value → 0 < max_value < 65536 →
  ∃ m1' m2',
    hdc_encode_thermometer m1 hv1 v1 max_value = Some m1' ∧
    hdc_encode_thermometer m2 hv2 v2 max_value = Some m2' ∧
    hdc_popcount m1' hv1 ≤ hdc_popcount m2' hv2.
Proof.
  intros Hm1 Hm2 H0 H12 H2 Hmax.
  destruct (hdc_encode_thermometer_popcount m1 hv1 v1 max_value Hm1)
    as (m1' & E1 & P1); [lia | lia |].
  destruct (hdc_encode_thermometer_popcount m2 hv2 v2 max_value Hm2)
    as (m2' & E2 & P2); [lia | lia |].
  exists m1', m2'. split_and!; [done | done |].
  rewrite P1, P2. unfold thermo_level, HV_DIMENSIONS, THERMO_LEVELS.
  rewrite (decide_False (P := max_value ≤ v1)) by lia.
  case_decide.
  - pose proof (thermo_level_below v1 max_value). lia.
  - apply Z.div_le_mono; lia.
Qed.

Lemma hdc_encode_thermometer_monotone_witness :
  mem_wf mem_sample ∧ mem_wf mem_zero ∧
  0 ≤ 500 ∧ 500 < 510 ∧ 510 ≤ 1024 ∧ 0 < 1024 < 65536 ∧
  ∃ m1' m2',
    hdc_encode_thermometer mem_sample 0%nat 500 1024 = Some m1' ∧
    hdc_encode_thermometer mem_zero 1%nat 510 1024 = Some m2' ∧
    hdc_popcount m1' 0%nat ≤ hdc_popcount m2' 1%nat.
Proof.
  refine (conj mem_sample_wf (conj mem_zero_wf (conj _ (conj _ (conj _ (conj _
    (hdc_encode_thermometer_monotone mem_sample mem_zero 0%nat 1%nat
       500 510 1024 mem_sample_wf mem_zero_wf _ _ _ _))))))); lia.
Defined.

(** C5.  The Hamming distance of two hypervectors is the number of bit
    positions at which they differ, which is the population count of their
    XOR; it is symmetric, it is zero exactly when the two hypervectors are
    equal, and it is 128 exactly when each is the bit-complement of the
    other. *)
Theorem hdc_hamming_differing_bits (m : mem) (a b r : ptr) :
  mem_wf m →
  hdc_hamming m a b = hamming_bits (m a) (m b) ∧
  hdc_hamming m a b = hdc_popcount (hdc_xor m r a b) r ∧
  hdc_hamming m a b = hdc_hamming m b a ∧
  (hdc_hamming m a b = 0 ↔ m a = m b) ∧
  (hdc_hamming m a b = 128 ↔ hv_complements (m a) (m b)).
Proof.
  intros Hm. rewrite !hdc_hamming_bits by done. split_and!.
  - done.
  - destruct (hdc_xor_spec m r a b Hm) as (Hwf & _ & Hld).
    rewrite hdc_popcount_count_bits, count_bits_bytes, hamming_bits_bytes by done.
    apply zsum_ext. intros i Hi. by rewrite Hld.
  - apply hamming_bits_sym.
  - by apply hamming_bits_zero.
  - apply hamming_bits_max.
Qed.

Lemma hdc_hamming_differing_bits_witness :
  mem_wf mem_sample ∧
  (hdc_hamming mem_sample 0%nat 1%nat
     = hamming_bits (mem_sample 0%nat) (mem_sample 1%nat) ∧
   hdc_hamming mem_sample 0%nat 1%nat
     = hdc_popcount (hdc_xor mem_sample 2%nat 0%nat 1%nat) 2%nat ∧
   hdc_hamming mem_sample 0%nat 1%nat = hdc_hamming mem_sample 1%nat 0%nat ∧
   (hdc_hamming mem_sample 0%nat 1%nat = 0
      ↔ mem_sample 0%nat = mem_sample 1%nat) ∧
   (hdc_hamming mem_sample 0%nat 1%nat = 128
      ↔ hv_complements (mem_sample 0%nat) (mem_sample 1%nat))).
Proof.
  exact (conj mem_sample_wf
    (hdc_hamming_differing_bits mem_sample 0%nat 1%nat 2%nat mem_sample_wf)).
Defined.

(** C6.  Similarity and Hamming distance add up to 128; the similarity is
    symmetric and lies between 0 and 128, and the subtraction that computes it
    does not wrap in its unsigned 8-bit result. *)
Theorem hdc_similarity_hamming (m : mem) (a b : ptr) :
  mem_wf m →
  hdc_similarity m a b + hdc_hamming m a b = 128 ∧
  hdc_similarity m a b = hdc_similarity m b a ∧
  0 ≤ hdc_similarity m a b ≤ 128 ∧
  hdc_similarity m a b = HV_DIMENSIONS - hdc_hamming m a b.
Proof.
  intros Hm. unfold hdc_similarity, HV_DIMENSIONS.
  rewrite !hdc_hamming_bits by done.
  rewrite (hamming_bits_sym (m b) (m a)).
  pose proof (hamming_bits_bounds (m a) (m b)).
  rewrite u8_small by lia. lia.
Qed.

Lemma hdc_similarity_hamming_witness :
  mem_wf mem_sample ∧
  (hdc_similarity mem_sample 0%nat 1%nat + hdc_hamming mem_sample 0%nat 1%nat
     = 128 ∧
   hdc_similarity mem_sample 0%nat 1%nat = hdc_similarity mem_sample 1%nat 0%nat ∧
   0 ≤ hdc_similarity mem_sample 0%nat 1%nat ≤ 128 ∧
   hdc_similarity mem_sample 0%nat 1%nat
     = HV_DIMENSIONS - hdc_hamming mem_sample 0%nat 1%nat).
Proof.
  exact (conj mem_sample_wf
    (hdc_similarity_hamming mem_sample 0%nat 1%nat mem_sample_wf)).
Defined.

(** C7.  The output of [hdc_encode_multi_channel] is the bundle (OR) of the
    bound codes (thermometer code XOR basis vector) of its channels, and it
    does not depend on their order: two calls whose value and basis arrays
    hold the same channels, in any two orders, leave the same output. *)
Theorem hdc_encode_multi_channel_order (temp result : ptr) (m1 m2 : mem)
    (values1 values2 : list Z) (basis1 basis2 : ptr) (n : Z) :
  mem_wf m1 → mem_wf m2 → temp ≠ result → 0 ≤ n < 256 →
  Z.of_nat (length values1) = n → Z.of_nat (length values2) = n →
  Forall (λ v, 0 ≤ v < 65536) values1 →
  Forall (λ v, 0 ≤ v < 65536) values2 →
  (∀ ch, (ch < Z.to_nat n)%nat →
     (basis1 + ch)%nat ≠ temp ∧ (basis1 + ch)%nat ≠ result ∧
     (basis2 + ch)%nat ≠ temp ∧ (basis2 + ch)%nat ≠ result) →
  channels m1 values1 basis1 ≡ₚ channels m2 values2 basis2 →
  ∃ m1' m2',
    hdc_encode_multi_channel temp m1 result values1 n basis1 = Some m1' ∧
    hdc_encode_multi_channel temp m2 result values2 n basis2 = Some m2' ∧
    (∀ k, 0 ≤ k < 128 →
       hv_bit (m1' result) k = bundle_bit (channels m1 values1 basis1) k) ∧
    m1' result = m2' result.
Proof.
  intros Hm1 Hm2 Htr Hn Hl1 Hl2 Hv1 Hv2 Hdisj Hperm.
  destruct (hdc_encode_multi_channel_bits temp m1 result values1 n basis1)
    as (m1' & E1 & Hwf1 & _ & Hb1); try done.
  { intros ch Hch. destruct (Hdisj ch); [lia | tauto]. }
  destruct (hdc_encode_multi_channel_bits temp m2 result values2 n basis2)
    as (m2' & E2 & Hwf2 & _ & Hb2); try done.
  { intros ch Hch. destruct (Hdisj ch); [lia | tauto]. }
  exists m1', m2'. split_and!; [done | done | done |].
  apply hv_bits_eq; [apply Hwf1 | apply Hwf2 |]. intros k Hk.
  rewrite Hb1, Hb2 by done. by apply bundle_bit_perm.
Qed.

Lemma hdc_encode_multi_channel_order_witness :
  mem_wf mem_channels ∧ mem_wf mem_channels ∧ (1 ≠ 0)%nat ∧ 0 ≤ 2 < 256 ∧
  Z.of_nat (length [256; 768]) = 2 ∧ Z.of_nat (length [768; 256]) = 2 ∧
  Forall (λ v, 0 ≤ v < 65536) [256; 768] ∧
  Forall (λ v, 0 ≤ v < 65536) [768; 256] ∧
  (∀ ch, (ch < Z.to_nat 2)%nat →
     (2 + ch)%nat ≠ 1%nat ∧ (2 + ch)%nat ≠ 0%nat ∧
     (4 + ch)%nat ≠ 1%nat ∧ (4 + ch)%nat ≠ 0%nat) ∧
  channels mem_channels [256; 768] 2 ≡ₚ channels mem_channels [768; 256] 4 ∧
  ∃ m1' m2',
    hdc_encode_multi_channel 1%nat mem_channels 0%nat [256; 768] 2 2%nat
      = Some m1' ∧
    hdc_encode_multi_channel 1%nat mem_channels 0%nat [768; 256] 2 4%nat
      = Some m2' ∧
    (∀ k, 0 ≤ k < 128 →
       hv_bit (m1' 0%nat) k
       = bundle_bit (channels mem_channels [256; 768] 2) k) ∧
    m1' 0%nat = m2' 0%nat.
Proof.
  assert (Forall (λ v, 0 ≤ v < 65536) [256; 768]) as H1
    by (repeat constructor; lia).
  assert (Forall (λ v, 0 ≤ v < 65536) [768; 256]) as H2
    by (repeat constructor; lia).
  assert (∀ ch, (ch < Z.to_nat 2)%nat →
     (2 + ch)%nat ≠ 1%nat ∧ (2 + ch)%nat ≠ 0%nat ∧
     (4 + ch)%nat ≠ 1%nat ∧ (4 + ch)%nat ≠ 0%nat) as H3 by lia.
  assert (channels mem_channels [256; 768] 2 ≡ₚ channels mem_channels [768; 256] 4)
    as H4 by apply perm_swap.
  refine (conj mem_channels_wf (conj mem_channels_wf (conj _ (conj _ (conj _
    (conj _ (conj H1 (conj H2 (conj H3 (conj H4
    (hdc_encode_multi_channel_order 1%nat 0%nat mem_channels mem_channels
       [256; 768] [768; 256] 2%nat 4%nat 2
       mem_channels_wf mem_channels_wf _ _ _ _ H1 H2 H3 H4)))))))))));
    (lia || reflexivity).
Defined.

(** C8.  Binding by XOR is its own inverse and has the zero vector as its
    identity: binding [x] with [b] into a buffer [t] and binding [t] with [b]
    again gives [x] back; binding [x] with a zero vector gives [x]; binding
    [x] with itself gives the zero vector.  The result buffers may be any
    buffers, the inputs included; only the intermediate buffer [t] must not
    be [b], whose value the second binding reads. *)
Theorem hdc_xor_self_inverse (m : mem) (x b zero t r : ptr) :
  mem_wf m → t ≠ b → m zero = hv_zero →
  hdc_xor (hdc_xor m t x b) r t b r = m x ∧
  hdc_xor m r x zero r = m x ∧
  hdc_xor m r x x r = hv_zero.
Proof.
  intros Hm Htb Hz. split_and!.
  - destruct (hdc_xor_spec m t x b Hm) as (Hwf1 & Hfr1 & Hld1).
    destruct (hdc_xor_spec _ r t b Hwf1) as (Hwf2 & _ & Hld2).
    apply mem_ext_at; [done | done |]. intros i Hi.
    rewrite Hld2, Hld1 by done. unfold load at 3. rewrite Hfr1 by done.
    fold (load m b i). by rewrite Z.lxor_assoc, Z.lxor_nilpotent, Z.lxor_0_r.
  - destruct (hdc_xor_spec m r x zero Hm) as (Hwf & _ & Hld).
    apply mem_ext_at; [done | done |]. intros i Hi. rewrite Hld by done.
    unfold load at 2. rewrite Hz. unfold hv_zero.
    rewrite lookup_total_replicate16 by done. apply Z.lxor_0_r.
  - destruct (hdc_xor_spec m r x x Hm) as (Hwf & _ & Hld).
    apply mem_eq_at; [done | done |]. intros i Hi. rewrite Hld by done.
    unfold hv_zero. rewrite lookup_total_replicate16 by done.
    apply Z.lxor_nilpotent.
Qed.

Lemma hdc_xor_self_inverse_witness :
  mem_wf mem_sample ∧ (3 ≠ 1)%nat ∧ mem_sample 2%nat = hv_zero ∧
  (hdc_xor (hdc_xor mem_sample 3%nat 0%nat 1%nat) 4%nat 3%nat 1%nat 4%nat
     = mem_sample 0%nat ∧
   hdc_xor mem_sample 4%nat 0%nat 2%nat 4%nat = mem_sample 0%nat ∧
   hdc_xor mem_sample 4%nat 0%nat 0%nat 4%nat = hv_zero).
Proof.
  refine (conj mem_sample_wf (conj _ (conj _
    (hdc_xor_self_inverse mem_sample 0%nat 1%nat 2%nat 3%nat 4%nat
       mem_sample_wf _ _)))); (lia || reflexivity).
Defined.

(** C9.  With [max_value = 0] the call is defined for every 16-bit [value]:
    [value >= max_value] holds, the saturation branch returns with the output
    all ones, and the division, which has no result for a zero divisor, is
    not reached. *)
Theorem hdc_encode_thermometer_max_zero (m : mem) (hv : ptr) (value : Z) :
  mem_wf m → 0 ≤ value < 65536 →
  hdc_encode_thermometer m hv value 0
    = Some (hdc_fill (hdc_clear m hv) hv 0xFF) ∧
  hdc_fill (hdc_clear m hv) hv 0xFF hv = hv_ones ∧
  udiv (u32 (u32 value * THERMO_LEVELS)) 0 = None.
Proof.
  intros Hm Hv. split_and!.
  - unfold hdc_encode_thermometer. by rewrite decide_True by lia.
  - destruct (hdc_clear_spec m hv Hm) as (Hwf1 & _ & _).
    by destruct (hdc_fill_spec (hdc_clear m hv) hv 0xFF Hwf1) as (_ & _ & ->).
  - done.
Qed.

Lemma hdc_encode_thermometer_max_zero_witness :
  mem_wf mem_sample ∧ 0 ≤ 0 < 65536 ∧
  hdc_encode_thermometer mem_sample 0%nat 0 0
    = Some (hdc_fill (hdc_clear mem_sample 0%nat) 0%nat 0xFF) ∧
  hdc_fill (hdc_clear mem_sample 0%nat) 0%nat 0xFF 0%nat = hv_ones ∧
  udiv (u32 (u32 0 * THERMO_LEVELS)) 0 = None.
Proof.
  refine (conj mem_sample_wf (conj _
    (hdc_encode_thermometer_max_zero mem_sample 0%nat 0 mem_sample_wf _))); lia.
Defined.

(** C10.  [hdc_copy] is safe under full aliasing of its arguments: called
    with [dest] and [src] the same buffer it returns and leaves that buffer,
    like every other, holding what it held.  For any two buffers, the same
    one or not, [dest] ends up holding what [src] held, and no buffer but
    [dest] changes.  The copy is the byte copy that [memcpy] is modelled
    as. *)
Theorem hdc_copy_same_buffer (m : mem) (dest src : ptr) :
  mem_wf m →
  ∃ m', hdc_copy m dest src = Some m' ∧
        m' dest = m src ∧
        (∀ q, q ≠ dest → m' q = m q) ∧
        (dest = src → ∀ q, m' q = m q).
Proof.
  intros Hm.
  destruct (hdc_copy_bytes m dest src Hm) as (m' & E & _ & Hfr & Hd).
  exists m'. split_and!; [done | done | done |].
  intros -> q. destruct (decide (q = src)) as [-> | Hq]; [done | by apply Hfr].
Qed.

Lemma hdc_copy_same_buffer_witness :
  mem_wf mem_sample ∧
  ∃ m', hdc_copy mem_sample 0%nat 0%nat = Some m' ∧
        m' 0%nat = mem_sample 0%nat ∧
        (∀ q, q ≠ 0%nat → m' q = mem_sample q) ∧
        (0%nat = 0%nat → ∀ q, m' q = mem_sample q).
Proof.
  exact (conj mem_sample_wf
    (hdc_copy_same_buffer mem_sample 0%nat 0%nat mem_sample_wf)).
Defined.

(** * Further properties of the code *)

(** ** Bitwise operations, bit by bit *)

Lemma u8_land x y : 0 ≤ x < 256 → 0 ≤ y < 256 → u8 (Z.land x y) = Z.land x y.
Proof.
  intros Hx Hy. apply u8_id_bits; [apply Z.land_nonneg; lia |].
  intros j Hj. by rewrite Z.land_spec, !byte_testbit_high.
Qed.

Lemma hdc_or_spec m result a b :
  mem_wf m →
  mem_wf (hdc_or m result a b) ∧
  (∀ q, q ≠ result → hdc_or m result a b q = m q) ∧
  (∀ i, 0 ≤ i < 16 →
     load (hdc_or m result a b) result i = Z.lor (load m a i) (load m b i)).
Proof.
  intros Hm.
  destruct (bytewise_loop Z.lor m result a b 16 Hm ltac:(lia)) as (Hwf & Hfr & Hld).
  split_and!; [done | done |]. intros i Hi.
  unfold hdc_or, HV_BYTES. rewrite (Hld i Hi), decide_True by lia.
  apply u8_lor; by apply load_range.
Qed.

Lemma hdc_and_spec m result a b :
  mem_wf m →
  mem_wf (hdc_and m result a b) ∧
  (∀ q, q ≠ result → hdc_and m result a b q = m q) ∧
  (∀ i, 0 ≤ i < 16 →
     load (hdc_and m result a b) result i = Z.land (load m a i) (load m b i)).
Proof.
  intros Hm.
  destruct (bytewise_loop Z.land m result a b 16 Hm ltac:(lia)) as (Hwf & Hfr & Hld).
  split_and!; [done | done |]. intros i Hi.
  unfold hdc_and, HV_BYTES. rewrite (Hld i Hi), decide_True by lia.
  apply u8_land; by apply load_range.
Qed.

Lemma hdc_or_bits m result a b k :
  mem_wf m → 0 ≤ k < 128 →
  hv_bit (hdc_or m result a b result) k = hv_bit (m a) k || hv_bit (m b) k.
Proof.
  intros Hm Hk. destruct (hdc_or_spec m result a b Hm) as (_ & _ & Hld).
  rewrite !hv_bit_alt, Hld by solve_divmod. apply Z.lor_spec.
Qed.

Lemma hdc_and_bits m result a b k :
  mem_wf m → 0 ≤ k < 128 →
  hv_bit (hdc_and m result a b result) k = hv_bit (m a) k && hv_bit (m b) k.
Proof.
  intros Hm Hk. destruct (hdc_and_spec m result a b Hm) as (_ & _ & Hld).
  rewrite !hv_bit_alt, Hld by solve_divmod. apply Z.land_spec.
Qed.

Lemma hdc_xor_wf m result a b : mem_wf m → mem_wf (hdc_xor m result a b).
Proof. intros Hm. by destruct (hdc_xor_spec m result a b Hm). Qed.

Lemma hdc_or_wf m result a b : mem_wf m → mem_wf (hdc_or m result a b).
Proof. intros Hm. by destruct (hdc_or_spec m result a b Hm). Qed.

Lemma hdc_and_wf m result a b : mem_wf m → mem_wf (hdc_and m result a b).
Proof. intros Hm. by destruct (hdc_and_spec m result a b Hm). Qed.

Lemma hdc_bundle_wf m memory pattern : mem_wf m → mem_wf (hdc_bundle m memory pattern).
Proof. intros Hm. by destruct (hdc_bundle_spec m memory pattern Hm). Qed.

Lemma hdc_xor_frame m result a b q :
  mem_wf m → q ≠ result → hdc_xor m result a b q = m q.
Proof. intros Hm Hq. destruct (hdc_xor_spec m result a b Hm) as (_ & H & _). by apply H. Qed.

Lemma hdc_bundle_frame m memory pattern q :
  mem_wf m → q ≠ memory → hdc_bundle m memory pattern q = m q.
Proof.
  intros Hm Hq. destruct (hdc_bundle_spec m memory pattern Hm) as (_ & H & _).
  by apply H.
Qed.

(** Equality of two buffers, possibly of two memories, from their bits. *)
Lemma mem_bits_eq (m1 m2 : mem) p q :
  mem_wf m1 → mem_wf m2 →
  (∀ k, 0 ≤ k < 128 → hv_bit (m1 p) k = hv_bit (m2 q) k) → m1 p = m2 q.
Proof. intros H1 H2. apply hv_bits_eq; [apply H1 | apply H2]. Qed.

Lemma count_bits_ext (x y : hv_t) :
  (∀ k, 0 ≤ k < 128 → hv_bit x k = hv_bit y k) → count_bits x = count_bits y.
Proof. intros H. apply zsum_ext. intros k Hk. by rewrite H. Qed.

(** ** Population count *)

(** X1.  For every byte, [hdc_popcount8] is the number of its set bits: it
    lies between 0 and 8, is 0 for the byte 0 only and 8 for the byte 0xFF
    only, and the counts of a byte and of its complement add up to 8. *)
Theorem hdc_popcount8_counts (byte : Z) :
  0 ≤ byte < 256 →
  hdc_popcount8 byte = bits8 byte ∧
  0 ≤ hdc_popcount8 byte ≤ 8 ∧
  (hdc_popcount8 byte = 0 ↔ byte = 0) ∧
  (hdc_popcount8 byte = 8 ↔ byte = 0xFF) ∧
  hdc_popcount8 byte + hdc_popcount8 (Z.lxor byte 0xFF) = 8.
Proof.
  intros Hb.
  assert (forallb (λ b,
            (hdc_popcount8 b =? bits8 b) && (0 <=? hdc_popcount8 b)
            && (hdc_popcount8 b <=? 8)
            && Bool.eqb (hdc_popcount8 b =? 0) (b =? 0)
            && Bool.eqb (hdc_popcount8 b =? 8) (b =? 0xFF)
            && (hdc_popcount8 b + hdc_popcount8 (Z.lxor b 0xFF) =? 8))
            (seqZ 0 256) = true) as H by (vm_compute; reflexivity).
  rewrite forallb_forall in H.
  assert (In byte (seqZ 0 256)) as Hin
    by (apply list_elem_of_In, elem_of_seqZ; lia).
  specialize (H byte Hin).
  repeat (apply andb_true_iff in H as [H ?]).
  repeat match goal with
         | X : Bool.eqb _ _ = true |- _ => apply Bool.eqb_prop in X
         end.
  split_and!; lia.
Qed.

Lemma hdc_popcount8_counts_witness :
  0 ≤ 0xA5 < 256 ∧
  hdc_popcount8 0xA5 = bits8 0xA5 ∧
  0 ≤ hdc_popcount8 0xA5 ≤ 8 ∧
  (hdc_popcount8 0xA5 = 0 ↔ 0xA5 = 0) ∧
  (hdc_popcount8 0xA5 = 8 ↔ 0xA5 = 0xFF) ∧
  hdc_popcount8 0xA5 + hdc_popcount8 (Z.lxor 0xA5 0xFF) = 8.
Proof.
  refine (conj _ (hdc_popcount8_counts 0xA5 _)); lia.
Defined.

(** X2.  [hdc_popcount] is the number of set bits of the hypervector: the
    sum of the byte counts, which the 8-bit accumulator holds without wrapping;
    it lies between 0 and 128, is 0 for the zero vector only and 128 for the
    all-ones vector only. *)
Theorem hdc_popcount_counts (m : mem) (hv : ptr) :
  mem_wf m →
  hdc_popcount m hv = count_bits (m hv) ∧
  hdc_popcount m hv = zsum 16 (λ i, hdc_popcount8 (load m hv i)) ∧
  0 ≤ hdc_popcount m hv ≤ 128 ∧
  (hdc_popcount m hv = 0 ↔ m hv = hv_zero) ∧
  (hdc_popcount m hv = 128 ↔ m hv = hv_ones).
Proof.
  intros Hm. rewrite hdc_popcount_count_bits by done.
  pose proof (count_bits_bounds (m hv)) as Hb.
  split_and!; try lia.
  - rewrite count_bits_bytes. apply zsum_ext. intros i Hi.
    symmetry. apply hdc_popcount8_bits8. by apply load_range.
  - unfold count_bits, HV_DIMENSIONS.
    rewrite (zsum_b2z_none 128 (hv_bit (m hv))) by lia. split.
    + intros H. apply hv_bits_eq; [apply Hm | apply hv_zero_wf |].
      intros k Hk. by rewrite H, hv_bit_zero.
    + intros -> k Hk. by apply hv_bit_zero.
  - unfold count_bits, HV_DIMENSIONS.
    rewrite (zsum_b2z_all 128 (hv_bit (m hv))) by lia. split.
    + intros H. apply hv_bits_eq; [apply Hm | apply hv_ones_wf |].
      intros k Hk. by rewrite H, hv_bit_ones.
    + intros -> k Hk. by apply hv_bit_ones.
Qed.

Lemma hdc_popcount_counts_witness :
  mem_wf mem_sample ∧
  hdc_popcount mem_sample 0%nat = count_bits (mem_sample 0%nat) ∧
  hdc_popcount mem_sample 0%nat
    = zsum 16 (λ i, hdc_popcount8 (load mem_sample 0%nat i)) ∧
  0 ≤ hdc_popcount mem_sample 0%nat ≤ 128 ∧
  (hdc_popcount mem_sample 0%nat = 0 ↔ mem_sample 0%nat = hv_zero) ∧
  (hdc_popcount mem_sample 0%nat = 128 ↔ mem_sample 0%nat = hv_ones).
Proof.
  exact (conj mem_sample_wf (hdc_popcount_counts mem_sample 0%nat mem_sample_wf)).
Defined.

(** ** Clear and fill *)

Lemma count_bits_replicate c :
  0 ≤ c < 256 → count_bits (replicate 16 c) = 16 * bits8 c.
Proof.
  intros Hc. unfold count_bits, HV_DIMENSIONS. change 128 with (8 * 16).
  rewrite zsum_bytes by lia.
  rewrite (zsum_ext 16 _ (λ _, bits8 c)).
  - unfold zsum at 1, for_loop. simpl. lia.
  - intros i Hi. apply zsum_ext. intros j Hj.
    rewrite hv_bit_replicate by lia. do 2 f_equal. solve_divmod.
Qed.

(** X3.  [hdc_fill] leaves the buffer holding 16 copies of the byte,
    whatever it held before, and changes no other buffer; the population
    count of the filled buffer is 16 times that of the byte.  [hdc_clear]
    leaves the zero vector. *)
Theorem hdc_fill_constant (m : mem) (hv : ptr) (value : Z) :
  mem_wf m → 0 ≤ value < 256 →
  hdc_fill m hv value hv = replicate 16 value ∧
  (∀ q, q ≠ hv → hdc_fill m hv value q = m q) ∧
  hdc_popcount (hdc_fill m hv value) hv = 16 * hdc_popcount8 value ∧
  hdc_clear m hv hv = hv_zero ∧
  (∀ q, q ≠ hv → hdc_clear m hv q = m q) ∧
  hdc_popcount (hdc_clear m hv) hv = 0.
Proof.
  intros Hm Hv.
  destruct (hdc_fill_spec m hv value Hm) as (Hwf & Hfr & Hf).
  destruct (hdc_clear_spec m hv Hm) as (Hwfc & Hfrc & Hc).
  rewrite (u8_small value) in Hf by done.
  split_and!; [done | done | | done | done |].
  - rewrite (hdc_popcount_count_bits _ hv Hwf), Hf, count_bits_replicate by done.
    by rewrite hdc_popcount8_bits8.
  - rewrite (hdc_popcount_count_bits _ hv Hwfc), Hc.
    unfold hv_zero. by rewrite count_bits_replicate.
Qed.

Lemma hdc_fill_constant_witness :
  mem_wf mem_sample ∧ 0 ≤ 0xAB < 256 ∧
  hdc_fill mem_sample 0%nat 0xAB 0%nat = replicate 16 0xAB ∧
  (∀ q, q ≠ 0%nat → hdc_fill mem_sample 0%nat 0xAB q = mem_sample q) ∧
  hdc_popcount (hdc_fill mem_sample 0%nat 0xAB) 0%nat = 16 * hdc_popcount8 0xAB ∧
  hdc_clear mem_sample 0%nat 0%nat = hv_zero ∧
  (∀ q, q ≠ 0%nat → hdc_clear mem_sample 0%nat q = mem_sample q) ∧
  hdc_popcount (hdc_clear mem_sample 0%nat) 0%nat = 0.
Proof.
  refine (conj mem_sample_wf (conj _
    (hdc_fill_constant mem_sample 0%nat 0xAB mem_sample_wf _))); lia.
Defined.

(** ** OR, AND and bundling *)

(** Well-formedness of the memory an operation leaves. *)
Ltac solve_mem_wf :=
  lazymatch goal with
  | |- mem_wf (hdc_xor _ _ _ _) => apply hdc_xor_wf; solve_mem_wf
  | |- mem_wf (hdc_or _ _ _ _) => apply hdc_or_wf; solve_mem_wf
  | |- mem_wf (hdc_and _ _ _ _) => apply hdc_and_wf; solve_mem_wf
  | |- mem_wf (hdc_bundle _ _ _) => apply hdc_bundle_wf; solve_mem_wf
  | |- mem_wf (store _ _ _ _) => apply store_wf; solve_mem_wf
  | |- mem_wf ?m =>
      match goal with H : mem_wf m |- _ => exact H end
  end.

Lemma zsum_plus n f g :
  0 ≤ n → zsum n (λ i, f i + g i) = zsum n f + zsum n g.
Proof.
  revert n. apply (Z_up_ind (λ n, zsum n (λ i, f i + g i) = zsum n f + zsum n g)).
  - done.
  - intros k Hk IH. rewrite !zsum_succ by done. lia.
Qed.

Lemma zsum_le n f g :
  0 ≤ n → (∀ i, 0 ≤ i < n → f i ≤ g i) → zsum n f ≤ zsum n g.
Proof.
  intros Hn. revert n Hn.
  apply (Z_up_ind (λ n, (∀ i, 0 ≤ i < n → f i ≤ g i) → zsum n f ≤ zsum n g)).
  - done.
  - intros k Hk IH H. rewrite !zsum_succ by done.
    pose proof (H k ltac:(lia)) as Hk'.
    assert (zsum k f ≤ zsum k g) by (apply IH; intros; apply H; lia). lia.
Qed.

Lemma count_bits_le (x y : hv_t) :
  (∀ k, 0 ≤ k < 128 → hv_bit x k = true → hv_bit y k = true) →
  count_bits x ≤ count_bits y.
Proof.
  intros H. apply zsum_le; [unfold HV_DIMENSIONS; lia |]. intros k Hk.
  specialize (H k Hk).
  destruct (hv_bit x k), (hv_bit y k); simpl; try lia.
Qed.

(** X4.  [hdc_or] writes the bitwise OR of its inputs, whichever of the
    three buffers coincide.  It is commutative and idempotent, the zero vector
    is its identity and the all-ones vector absorbs. *)
Theorem hdc_or_algebra (m : mem) (r a b zero ones : ptr) :
  mem_wf m → m zero = hv_zero → m ones = hv_ones →
  (∀ k, 0 ≤ k < 128 →
     hv_bit (hdc_or m r a b r) k = hv_bit (m a) k || hv_bit (m b) k) ∧
  hdc_or m r a b r = hdc_or m r b a r ∧
  hdc_or m r a a r = m a ∧
  hdc_or m r a zero r = m a ∧
  hdc_or m r a ones r = hv_ones.
Proof.
  intros Hm Hz Ho. split_and!.
  - intros k Hk. by apply hdc_or_bits.
  - apply mem_bits_eq; [by apply hdc_or_wf | by apply hdc_or_wf |].
    intros k Hk. rewrite !hdc_or_bits by done. apply orb_comm.
  - apply mem_bits_eq; [by apply hdc_or_wf | done |].
    intros k Hk. rewrite !hdc_or_bits by done. apply orb_diag.
  - apply mem_bits_eq; [by apply hdc_or_wf | done |].
    intros k Hk. rewrite !hdc_or_bits, Hz, hv_bit_zero by done. apply orb_false_r.
  - apply hv_bits_eq; [by apply hdc_or_wf | apply hv_ones_wf |].
    intros k Hk. rewrite !hdc_or_bits, Ho, hv_bit_ones by done. apply orb_true_r.
Qed.

Lemma hdc_or_algebra_witness :
  mem_wf mem_sample ∧ mem_sample 2%nat = hv_zero ∧
  hdc_fill mem_sample 3%nat 0xFF 3%nat = hv_ones ∧
  let m := hdc_fill mem_sample 3%nat 0xFF in
  (∀ k, 0 ≤ k < 128 →
     hv_bit (hdc_or m 4%nat 0%nat 1%nat 4%nat) k
     = hv_bit (m 0%nat) k || hv_bit (m 1%nat) k) ∧
  hdc_or m 4%nat 0%nat 1%nat 4%nat = hdc_or m 4%nat 1%nat 0%nat 4%nat ∧
  hdc_or m 4%nat 0%nat 0%nat 4%nat = m 0%nat ∧
  hdc_or m 4%nat 0%nat 2%nat 4%nat = m 0%nat ∧
  hdc_or m 4%nat 0%nat 3%nat 4%nat = hv_ones.
Proof.
  assert (mem_wf (hdc_fill mem_sample 3%nat 0xFF)) as Hwf
    by (by destruct (hdc_fill_spec mem_sample 3%nat 0xFF mem_sample_wf)).
  refine (conj mem_sample_wf (conj _ (conj _
    (hdc_or_algebra (hdc_fill mem_sample 3%nat 0xFF) 4%nat 0%nat 1%nat 2%nat 3%nat
       Hwf _ _)))); reflexivity.
Defined.

(** X5.  [hdc_and] writes the bitwise AND of its inputs, whichever of the
    three buffers coincide.  It is commutative and idempotent, the all-ones
    vector is its identity and the zero vector absorbs. *)
Theorem hdc_and_algebra (m : mem) (r a b zero ones : ptr) :
  mem_wf m → m zero = hv_zero → m ones = hv_ones →
  (∀ k, 0 ≤ k < 128 →
     hv_bit (hdc_and m r a b r) k = hv_bit (m a) k && hv_bit (m b) k) ∧
  hdc_and m r a b r = hdc_and m r b a r ∧
  hdc_and m r a a r = m a ∧
  hdc_and m r a ones r = m a ∧
  hdc_and m r a zero r = hv_zero.
Proof.
  intros Hm Hz Ho. split_and!.
  - intros k Hk. by apply hdc_and_bits.
  - apply mem_bits_eq; [by apply hdc_and_wf | by apply hdc_and_wf |].
    intros k Hk. rewrite !hdc_and_bits by done. apply andb_comm.
  - apply mem_bits_eq; [by apply hdc_and_wf | done |].
    intros k Hk. rewrite !hdc_and_bits by done. apply andb_diag.
  - apply mem_bits_eq; [by apply hdc_and_wf | done |].
    intros k Hk. rewrite !hdc_and_bits, Ho, hv_bit_ones by done. apply andb_true_r.
  - apply hv_bits_eq; [by apply hdc_and_wf | apply hv_zero_wf |].
    intros k Hk. rewrite !hdc_and_bits, Hz, hv_bit_zero by done. apply andb_false_r.
Qed.

Lemma hdc_and_algebra_witness :
  mem_wf mem_sample ∧ mem_sample 2%nat = hv_zero ∧
  hdc_fill mem_sample 3%nat 0xFF 3%nat = hv_ones ∧
  let m := hdc_fill mem_sample 3%nat 0xFF in
  (∀ k, 0 ≤ k < 128 →
     hv_bit (hdc_and m 4%nat 0%nat 1%nat 4%nat) k
     = hv_bit (m 0%nat) k && hv_bit (m 1%nat) k) ∧
  hdc_and m 4%nat 0%nat 1%nat 4%nat = hdc_and m 4%nat 1%nat 0%nat 4%nat ∧
  hdc_and m 4%nat 0%nat 0%nat 4%nat = m 0%nat ∧
  hdc_and m 4%nat 0%nat 3%nat 4%nat = m 0%nat ∧
  hdc_and m 4%nat 0%nat 2%nat 4%nat = hv_zero.
Proof.
  assert (mem_wf (hdc_fill mem_sample 3%nat 0xFF)) as Hwf
    by (by destruct (hdc_fill_spec mem_sample 3%nat 0xFF mem_sample_wf)).
  refine (conj mem_sample_wf (conj _ (conj _
    (hdc_and_algebra (hdc_fill mem_sample 3%nat 0xFF) 4%nat 0%nat 1%nat 2%nat 3%nat
       Hwf _ _)))); reflexivity.
Defined.

(** X6.  Counting bits of the union and the intersection: the population
    counts of [hdc_or] and [hdc_and] of two hypervectors add up to the sum
    of their population counts, their difference is the Hamming distance, and
    the intersection has at most, the union at least, as many set bits as
    either input. *)
Theorem hdc_or_and_popcount (m : mem) (r1 r2 a b : ptr) :
  mem_wf m →
  hdc_popcount (hdc_or m r1 a b) r1 + hdc_popcount (hdc_and m r2 a b) r2
    = hdc_popcount m a + hdc_popcount m b ∧
  hdc_popcount (hdc_or m r1 a b) r1 - hdc_popcount (hdc_and m r2 a b) r2
    = hdc_hamming m a b ∧
  hdc_popcount (hdc_and m r2 a b) r2 ≤ hdc_popcount m a ∧
  hdc_popcount m a ≤ hdc_popcount (hdc_or m r1 a b) r1.
Proof.
  intros Hm.
  rewrite (hdc_hamming_bits m a b) by done.
  rewrite (hdc_popcount_count_bits (hdc_or m r1 a b) r1) by solve_mem_wf.
  rewrite (hdc_popcount_count_bits (hdc_and m r2 a b) r2) by solve_mem_wf.
  rewrite (hdc_popcount_count_bits m a), (hdc_popcount_count_bits m b) by done.
  assert (count_bits (hdc_or m r1 a b r1)
          = zsum 128 (λ k, Z.b2z (hv_bit (m a) k || hv_bit (m b) k))) as ->.
  { apply zsum_ext. intros k Hk. by rewrite hdc_or_bits. }
  assert (count_bits (hdc_and m r2 a b r2)
          = zsum 128 (λ k, Z.b2z (hv_bit (m a) k && hv_bit (m b) k))) as ->.
  { apply zsum_ext. intros k Hk. by rewrite hdc_and_bits. }
  unfold count_bits, hamming_bits, HV_DIMENSIONS.
  assert (∀ x y : bool, Z.b2z (x || y) + Z.b2z (x && y) = Z.b2z x + Z.b2z y)
    as Hie by (by intros [] []).
  assert (∀ x y : bool, Z.b2z (x || y) = Z.b2z (x && y) + Z.b2z (xorb x y))
    as Hxor by (by intros [] []).
  split_and!.
  - rewrite <- !zsum_plus by lia. apply zsum_ext. intros k _. apply Hie.
  - enough (zsum 128 (λ k, Z.b2z (hv_bit (m a) k || hv_bit (m b) k))
            = zsum 128 (λ k, Z.b2z (hv_bit (m a) k && hv_bit (m b) k))
              + zsum 128 (λ k, Z.b2z (xorb (hv_bit (m a) k) (hv_bit (m b) k))))
      by lia.
    rewrite <- zsum_plus by lia. apply zsum_ext. intros k _. apply Hxor.
  - apply zsum_le; [lia |]. intros k _.
    by destruct (hv_bit (m a) k), (hv_bit (m b) k).
  - apply zsum_le; [lia |]. intros k _.
    by destruct (hv_bit (m a) k), (hv_bit (m b) k).
Qed.

Lemma hdc_or_and_popcount_witness :
  mem_wf mem_sample ∧
  hdc_popcount (hdc_or mem_sample 2%nat 0%nat 1%nat) 2%nat
  + hdc_popcount (hdc_and mem_sample 3%nat 0%nat 1%nat) 3%nat
    = hdc_popcount mem_sample 0%nat + hdc_popcount mem_sample 1%nat ∧
  hdc_popcount (hdc_or mem_sample 2%nat 0%nat 1%nat) 2%nat
  - hdc_popcount (hdc_and mem_sample 3%nat 0%nat 1%nat) 3%nat
    = hdc_hamming mem_sample 0%nat 1%nat ∧
  hdc_popcount (hdc_and mem_sample 3%nat 0%nat 1%nat) 3%nat
    ≤ hdc_popcount mem_sample 0%nat ∧
  hdc_popcount mem_sample 0%nat
    ≤ hdc_popcount (hdc_or mem_sample 2%nat 0%nat 1%nat) 2%nat.
Proof.
  exact (conj mem_sample_wf
    (hdc_or_and_popcount mem_sample 2%nat 3%nat 0%nat 1%nat mem_sample_wf)).
Defined.

(** X7.  Bundling accumulates by OR: the memory gets every bit of the
    pattern and keeps every bit it had.  Bundling the same pattern a second
    time changes nothing, bundling a memory into itself changes nothing, and
    two patterns can be bundled in either order. *)
Theorem hdc_bundle_accumulates (m : mem) (memory p1 p2 : ptr) :
  mem_wf m → p1 ≠ memory → p2 ≠ memory →
  (∀ k, 0 ≤ k < 128 →
     hv_bit (hdc_bundle m memory p1 memory) k
     = hv_bit (m memory) k || hv_bit (m p1) k) ∧
  hdc_bundle (hdc_bundle m memory p1) memory p1 memory
    = hdc_bundle m memory p1 memory ∧
  hdc_bundle m memory memory memory = m memory ∧
  hdc_bundle (hdc_bundle m memory p1) memory p2 memory
    = hdc_bundle (hdc_bundle m memory p2) memory p1 memory.
Proof.
  intros Hm H1 H2.
  assert (∀ p, mem_wf (hdc_bundle m memory p)) as Hwf
    by (intros; by apply hdc_bundle_wf).
  split_and!.
  - intros k Hk. by apply hdc_bundle_bits.
  - apply mem_bits_eq; [by apply hdc_bundle_wf | done |]. intros k Hk.
    rewrite !hdc_bundle_bits by done.
    rewrite (hdc_bundle_frame m memory p1 p1) by done.
    by destruct (hv_bit (m memory) k), (hv_bit (m p1) k).
  - apply mem_bits_eq; [done | done |]. intros k Hk.
    rewrite hdc_bundle_bits by done. apply orb_diag.
  - apply mem_bits_eq; [by apply hdc_bundle_wf | by apply hdc_bundle_wf |].
    intros k Hk. rewrite !hdc_bundle_bits by done.
    rewrite (hdc_bundle_frame m memory p1 p2), (hdc_bundle_frame m memory p2 p1)
      by done.
    by destruct (hv_bit (m memory) k), (hv_bit (m p1) k), (hv_bit (m p2) k).
Qed.

Lemma hdc_bundle_accumulates_witness :
  mem_wf mem_sample ∧ (0 ≠ 2)%nat ∧ (1 ≠ 2)%nat ∧
  (∀ k, 0 ≤ k < 128 →
     hv_bit (hdc_bundle mem_sample 2%nat 0%nat 2%nat) k
     = hv_bit (mem_sample 2%nat) k || hv_bit (mem_sample 0%nat) k) ∧
  hdc_bundle (hdc_bundle mem_sample 2%nat 0%nat) 2%nat 0%nat 2%nat
    = hdc_bundle mem_sample 2%nat 0%nat 2%nat ∧
  hdc_bundle mem_sample 2%nat 2%nat 2%nat = mem_sample 2%nat ∧
  hdc_bundle (hdc_bundle mem_sample 2%nat 0%nat) 2%nat 1%nat 2%nat
    = hdc_bundle (hdc_bundle mem_sample 2%nat 1%nat) 2%nat 0%nat 2%nat.
Proof.
  refine (conj mem_sample_wf (conj _ (conj _
    (hdc_bundle_accumulates mem_sample 2%nat 0%nat 1%nat mem_sample_wf _ _))));
    lia.
Defined.

(** X8.  Bundling never clears a bit and saturates: the population count of
    the memory does not decrease, is at least that of the pattern and at most
    the sum of the two; a memory that is all ones stays all ones, and bundling
    an all-ones pattern makes it all ones. *)
Theorem hdc_bundle_saturates (m : mem) (memory pattern : ptr) :
  mem_wf m →
  hdc_popcount m memory ≤ hdc_popcount (hdc_bundle m memory pattern) memory ∧
  hdc_popcount m pattern ≤ hdc_popcount (hdc_bundle m memory pattern) memory ∧
  hdc_popcount (hdc_bundle m memory pattern) memory
    ≤ hdc_popcount m memory + hdc_popcount m pattern ∧
  (m memory = hv_ones ∨ m pattern = hv_ones →
   hdc_bundle m memory pattern memory = hv_ones).
Proof.
  intros Hm.
  pose proof (hdc_bundle_wf m memory pattern Hm) as Hwf.
  rewrite !hdc_popcount_count_bits by done.
  split_and!.
  - apply count_bits_le. intros k Hk Hb.
    by rewrite hdc_bundle_bits, Hb by done.
  - apply count_bits_le. intros k Hk Hb.
    rewrite hdc_bundle_bits, Hb by done. apply orb_true_r.
  - unfold count_bits, HV_DIMENSIONS. rewrite <- zsum_plus by lia.
    apply zsum_le; [lia |]. intros k Hk. rewrite hdc_bundle_bits by done.
    by destruct (hv_bit (m memory) k), (hv_bit (m pattern) k).
  - intros H. apply hv_bits_eq; [apply Hwf | apply hv_ones_wf |].
    intros k Hk. rewrite hdc_bundle_bits, hv_bit_ones by done.
    destruct H as [-> | ->]; rewrite hv_bit_ones by done;
      [done | apply orb_true_r].
Qed.

Lemma hdc_bundle_saturates_witness :
  mem_wf mem_sample ∧
  hdc_popcount mem_sample 0%nat
    ≤ hdc_popcount (hdc_bundle mem_sample 0%nat 1%nat) 0%nat ∧
  hdc_popcount mem_sample 1%nat
    ≤ hdc_popcount (hdc_bundle mem_sample 0%nat 1%nat) 0%nat ∧
  hdc_popcount (hdc_bundle mem_sample 0%nat 1%nat) 0%nat
    ≤ hdc_popcount mem_sample 0%nat + hdc_popcount mem_sample 1%nat ∧
  (mem_sample 0%nat = hv_ones ∨ mem_sample 1%nat = hv_ones →
   hdc_bundle mem_sample 0%nat 1%nat 0%nat = hv_ones).
Proof.
  exact (conj mem_sample_wf
    (hdc_bundle_saturates mem_sample 0%nat 1%nat mem_sample_wf)).
Defined.

(** ** Binding and distance *)

(** X9.  The Hamming distance satisfies the triangle inequality. *)
Theorem hdc_hamming_triangle (m : mem) (a b c : ptr) :
  mem_wf m →
  hdc_hamming m a c ≤ hdc_hamming m a b + hdc_hamming m b c.
Proof.
  intros Hm. rewrite !hdc_hamming_bits by done.
  unfold hamming_bits, HV_DIMENSIONS. rewrite <- zsum_plus by lia.
  apply zsum_le; [lia |]. intros k Hk.
  by destruct (hv_bit (m a) k), (hv_bit (m b) k), (hv_bit (m c) k).
Qed.

Lemma hdc_hamming_triangle_witness :
  mem_wf mem_channels ∧
  hdc_hamming mem_channels 2%nat 0%nat
    ≤ hdc_hamming mem_channels 2%nat 3%nat + hdc_hamming mem_channels 3%nat 0%nat.
Proof.
  exact (conj mem_channels_wf
    (hdc_hamming_triangle mem_channels 2%nat 3%nat 0%nat mem_channels_wf)).
Defined.

(** X10.  Binding two hypervectors with the same key leaves their Hamming
    distance, and so their similarity, as it was.  The bound vectors may be
    written over the inputs ([ra = a], [rb = b]). *)
Theorem hdc_xor_preserves_hamming (m : mem) (a b key ra rb : ptr) :
  mem_wf m → ra ≠ key → ra ≠ b → rb ≠ ra →
  let m' := hdc_xor (hdc_xor m ra a key) rb b key in
  hdc_hamming m' ra rb = hdc_hamming m a b ∧
  hdc_similarity m' ra rb = hdc_similarity m a b.
Proof.
  intros Hm Hk Hb Hr m'.
  pose proof (hdc_xor_wf m ra a key Hm) as Hwf1.
  pose proof (hdc_xor_wf _ rb b key Hwf1) as Hwf2.
  assert (hdc_hamming m' ra rb = hdc_hamming m a b) as E.
  { rewrite !hdc_hamming_bits by done. apply zsum_ext. intros k Hk'.
    subst m'. rewrite hdc_xor_bits by done.
    rewrite (hdc_xor_frame _ rb b key ra) by (done || lia).
    rewrite hdc_xor_bits by done.
    rewrite (hdc_xor_frame m ra a key b), (hdc_xor_frame m ra a key key)
      by (done || lia).
    by destruct (hv_bit (m a) k), (hv_bit (m b) k), (hv_bit (m key) k). }
  split; [done |]. unfold hdc_similarity. by rewrite E.
Qed.

Lemma hdc_xor_preserves_hamming_witness :
  mem_wf mem_channels ∧ (2 ≠ 0)%nat ∧ (2 ≠ 3)%nat ∧ (3 ≠ 2)%nat ∧
  let m' := hdc_xor (hdc_xor mem_channels 2%nat 2%nat 0%nat) 3%nat 3%nat 0%nat in
  hdc_hamming m' 2%nat 3%nat = hdc_hamming mem_channels 2%nat 3%nat ∧
  hdc_similarity m' 2%nat 3%nat = hdc_similarity mem_channels 2%nat 3%nat.
Proof.
  refine (conj mem_channels_wf (conj _ (conj _ (conj _
    (hdc_xor_preserves_hamming mem_channels 2%nat 3%nat 0%nat 2%nat 3%nat
       mem_channels_wf _ _ _))))); lia.
Defined.

Lemma zsum_ones n : 0 ≤ n → zsum n (λ _, 1) = n.
Proof.
  intros Hn. apply (proj2 (zsum_b2z_all n (λ _, true) Hn)). done.
Qed.

Lemma count_bits_complements (x y : hv_t) :
  hv_complements x y → count_bits y = 128 - count_bits x.
Proof.
  intros H. unfold count_bits, HV_DIMENSIONS.
  enough (zsum 128 (λ k, Z.b2z (hv_bit y k)) + zsum 128 (λ k, Z.b2z (hv_bit x k))
          = 128) by lia.
  rewrite <- zsum_plus by lia.
  transitivity (zsum 128 (λ _, 1)); [| by apply zsum_ones].
  apply zsum_ext. intros k Hk. rewrite (H k) by done.
  by destruct (hv_bit x k).
Qed.

(** X11.  Binding with the all-ones vector complements: every bit of the
    result is the negation of the same bit of the input, so the result is at
    Hamming distance 128 and similarity 0 from the input and has 128 minus as
    many set bits. *)
Theorem hdc_xor_ones_complements (m : mem) (r a ones : ptr) :
  mem_wf m → m ones = hv_ones → r ≠ a →
  let m' := hdc_xor m r a ones in
  hv_complements (m a) (m' r) ∧
  hdc_hamming m' a r = 128 ∧
  hdc_similarity m' a r = 0 ∧
  hdc_popcount m' r = 128 - hdc_popcount m a.
Proof.
  intros Hm Ho Hra m'.
  assert (mem_wf m') as Hwf by (by apply hdc_xor_wf).
  assert (m' a = m a) as Ea by (apply hdc_xor_frame; [done | lia]).
  assert (hv_complements (m a) (m' r)) as Hc.
  { intros k Hk. subst m'. rewrite hdc_xor_bits, Ho, hv_bit_ones by done.
    by destruct (hv_bit (m a) k). }
  assert (hdc_hamming m' a r = 128) as Hh.
  { rewrite (hdc_hamming_bits m' a r Hwf), Ea. by apply hamming_bits_max. }
  split_and!; [done | done | |].
  - unfold hdc_similarity. by rewrite Hh.
  - rewrite (hdc_popcount_count_bits m' r Hwf), (hdc_popcount_count_bits m a Hm).
    by apply count_bits_complements.
Qed.

Lemma hdc_xor_ones_complements_witness :
  let m := hdc_fill mem_sample 3%nat 0xFF in
  mem_wf m ∧ m 3%nat = hv_ones ∧ (2 ≠ 0)%nat ∧
  let m' := hdc_xor m 2%nat 0%nat 3%nat in
  hv_complements (m 0%nat) (m' 2%nat) ∧
  hdc_hamming m' 0%nat 2%nat = 128 ∧
  hdc_similarity m' 0%nat 2%nat = 0 ∧
  hdc_popcount m' 2%nat = 128 - hdc_popcount m 0%nat.
Proof.
  assert (mem_wf (hdc_fill mem_sample 3%nat 0xFF)) as Hwf
    by (by destruct (hdc_fill_spec mem_sample 3%nat 0xFF mem_sample_wf)).
  refine (conj Hwf (conj _ (conj _
    (hdc_xor_ones_complements (hdc_fill mem_sample 3%nat 0xFF) 2%nat 0%nat 3%nat
       Hwf _ _)))); (lia || reflexivity).
Defined.

(** X12.  Binding is commutative and associative: [a XOR b] is [b XOR a],
    and binding [a XOR b] with [c] gives what binding [a] with [b XOR c]
    gives.  [t] is the buffer of the intermediate result. *)
Theorem hdc_xor_comm_assoc (m : mem) (r t a b c : ptr) :
  mem_wf m → t ≠ a → t ≠ c →
  hdc_xor m r a b r = hdc_xor m r b a r ∧
  hdc_xor (hdc_xor m t a b) r t c r = hdc_xor (hdc_xor m t b c) r a t r.
Proof.
  intros Hm Hta Htc.
  pose proof (hdc_xor_wf m t a b Hm) as Hw1.
  pose proof (hdc_xor_wf m t b c Hm) as Hw2.
  split.
  - apply mem_bits_eq; [by apply hdc_xor_wf | by apply hdc_xor_wf |].
    intros k Hk. rewrite !hdc_xor_bits by done. apply xorb_comm.
  - apply mem_bits_eq; [solve_mem_wf | solve_mem_wf |].
    intros k Hk.
    rewrite (hdc_xor_bits (hdc_xor m t a b) r t c k Hw1 Hk).
    rewrite (hdc_xor_bits (hdc_xor m t b c) r a t k Hw2 Hk).
    rewrite (hdc_xor_bits m t a b k Hm Hk), (hdc_xor_bits m t b c k Hm Hk).
    rewrite (hdc_xor_frame m t a b c), (hdc_xor_frame m t b c a) by (done || lia).
    apply xorb_assoc.
Qed.

Lemma hdc_xor_comm_assoc_witness :
  mem_wf mem_channels ∧ (1 ≠ 2)%nat ∧ (1 ≠ 4)%nat ∧
  hdc_xor mem_channels 0%nat 2%nat 3%nat 0%nat
    = hdc_xor mem_channels 0%nat 3%nat 2%nat 0%nat ∧
  hdc_xor (hdc_xor mem_channels 1%nat 2%nat 3%nat) 0%nat 1%nat 4%nat 0%nat
    = hdc_xor (hdc_xor mem_channels 1%nat 3%nat 4%nat) 0%nat 2%nat 1%nat 0%nat.
Proof.
  refine (conj mem_channels_wf (conj _ (conj _
    (hdc_xor_comm_assoc mem_channels 0%nat 1%nat 2%nat 3%nat 4%nat
       mem_channels_wf _ _)))); lia.
Defined.

(** X13.  The similarity of two hypervectors is the number of bit positions
    at which they agree: it is 128 exactly when they are equal and 0 exactly
    when each is the bit-complement of the other. *)
Theorem hdc_similarity_agreement (m : mem) (a b : ptr) :
  mem_wf m →
  hdc_similarity m a b
    = zsum 128 (λ k, Z.b2z (Bool.eqb (hv_bit (m a) k) (hv_bit (m b) k))) ∧
  (hdc_similarity m a b = 128 ↔ m a = m b) ∧
  (hdc_similarity m a b = 0 ↔ hv_complements (m a) (m b)).
Proof.
  intros Hm. unfold hdc_similarity, HV_DIMENSIONS.
  rewrite (hdc_hamming_bits m a b Hm).
  pose proof (hamming_bits_bounds (m a) (m b)) as Hb.
  rewrite u8_small by lia.
  pose proof (hamming_bits_zero m a b Hm) as Hz.
  pose proof (hamming_bits_max (m a) (m b)) as Hx.
  split_and!; [| split; intros H; [apply Hz | apply Hz in H]; lia
               | split; intros H; [apply Hx | apply Hx in H]; lia].
  enough (zsum 128 (λ k, Z.b2z (Bool.eqb (hv_bit (m a) k) (hv_bit (m b) k)))
          + hamming_bits (m a) (m b) = 128) by lia.
  unfold hamming_bits, HV_DIMENSIONS. rewrite <- zsum_plus by lia.
  transitivity (zsum 128 (λ _, 1)); [| by apply zsum_ones].
  apply zsum_ext. intros k Hk.
  by destruct (hv_bit (m a) k), (hv_bit (m b) k).
Qed.

Lemma hdc_similarity_agreement_witness :
  mem_wf mem_sample ∧
  hdc_similarity mem_sample 0%nat 1%nat
    = zsum 128 (λ k, Z.b2z (Bool.eqb (hv_bit (mem_sample 0%nat) k)
                                      (hv_bit (mem_sample 1%nat) k))) ∧
  (hdc_similarity mem_sample 0%nat 1%nat = 128
     ↔ mem_sample 0%nat = mem_sample 1%nat) ∧
  (hdc_similarity mem_sample 0%nat 1%nat = 0
     ↔ hv_complements (mem_sample 0%nat) (mem_sample 1%nat)).
Proof.
  exact (conj mem_sample_wf
    (hdc_similarity_agreement mem_sample 0%nat 1%nat mem_sample_wf)).
Defined.

(** ** Permutation *)

(** The bit at position [j] after a permutation is the bit that was at
    position [(j - shifts) mod 128]. *)
Lemma hdc_permute_back temp (m : mem) hv shifts :
  mem_wf m → temp ≠ hv → 0 ≤ shifts < 256 →
  ∃ m', hdc_permute temp m hv shifts = Some m' ∧ mem_wf m' ∧
        (∀ q, q ≠ hv → q ≠ temp → m' q = m q) ∧
        (∀ j, 0 ≤ j < 128 →
           hv_bit (m' hv) j = hv_bit (m hv) ((j - shifts) mod 128)).
Proof.
  intros Hm Hne Hs.
  destruct (hdc_permute_bits temp m hv shifts Hm Hne Hs)
    as (m' & E & Hwf & Hfr & Hbits).
  exists m'. split_and!; [done | done | done |]. intros j Hj.
  rewrite <- (Hbits ((j - shifts) mod 128)) by (apply Z.mod_pos_bound; lia).
  f_equal. rewrite Z.add_mod_idemp_l by lia.
  replace (j - shifts + shifts) with j by lia. symmetry. apply Z.mod_small. lia.
Qed.

(** X14.  Permutations compose by adding their shifts modulo 128: permuting
    by [s1] and then by [s2] gives what one permutation by any [s3] congruent
    to [s1 + s2] gives; in particular a second permutation that completes the
    first to a multiple of 128 gives the hypervector back. *)
Theorem hdc_permute_compose (temp : ptr) (m : mem) (hv : ptr) (s1 s2 s3 : Z) :
  mem_wf m → temp ≠ hv →
  0 ≤ s1 < 256 → 0 ≤ s2 < 256 → 0 ≤ s3 < 256 →
  (s1 + s2) mod 128 = s3 mod 128 →
  ∃ m1 m2 m3,
    hdc_permute temp m hv s1 = Some m1 ∧
    hdc_permute temp m1 hv s2 = Some m2 ∧
    hdc_permute temp m hv s3 = Some m3 ∧
    m2 hv = m3 hv ∧
    (s3 mod 128 = 0 → m2 hv = m hv).
Proof.
  intros Hm Hne H1 H2 H3 Hs.
  destruct (hdc_permute_back temp m hv s1 Hm Hne H1) as (m1 & E1 & Hw1 & _ & B1).
  destruct (hdc_permute_back temp m1 hv s2 Hw1 Hne H2) as (m2 & E2 & Hw2 & _ & B2).
  destruct (hdc_permute_back temp m hv s3 Hm Hne H3) as (m3 & E3 & Hw3 & _ & B3).
  assert (∀ j, 0 ≤ j < 128 →
            hv_bit (m2 hv) j = hv_bit (m hv) ((j - s3) mod 128)) as B.
  { intros j Hj. rewrite B2 by done.
    rewrite B1 by (apply Z.mod_pos_bound; lia). f_equal.
    rewrite Zminus_mod_idemp_l.
    replace (j - s2 - s1) with (j - (s1 + s2)) by lia.
    rewrite (Zminus_mod j (s1 + s2)), (Zminus_mod j s3). by rewrite Hs. }
  exists m1, m2, m3. split_and!; [done | done | done | |].
  - apply mem_bits_eq; [done | done |]. intros j Hj.
    by rewrite B, B3.
  - intros H0. apply mem_bits_eq; [done | done |]. intros j Hj.
    rewrite B by done. f_equal.
    rewrite Zminus_mod, H0, Z.sub_0_r, Z.mod_mod by lia. apply Z.mod_small. lia.
Qed.

Lemma hdc_permute_compose_witness :
  mem_wf mem_sample ∧ (2 ≠ 0)%nat ∧
  0 ≤ 37 < 256 ∧ 0 ≤ 219 < 256 ∧ 0 ≤ 0 < 256 ∧
  (37 + 219) mod 128 = 0 mod 128 ∧
  ∃ m1 m2 m3,
    hdc_permute 2%nat mem_sample 0%nat 37 = Some m1 ∧
    hdc_permute 2%nat m1 0%nat 219 = Some m2 ∧
    hdc_permute 2%nat mem_sample 0%nat 0 = Some m3 ∧
    m2 0%nat = m3 0%nat ∧
    (0 mod 128 = 0 → m2 0%nat = mem_sample 0%nat).
Proof.
  refine (conj mem_sample_wf (conj _ (conj _ (conj _ (conj _ (conj _
    (hdc_permute_compose 2%nat mem_sample 0%nat 37 219 0
       mem_sample_wf _ _ _ _ _))))))); (lia || reflexivity).
Defined.

(** X15.  Permuting two hypervectors by the same shift leaves their Hamming
    distance, and so their similarity, as it was. *)
Theorem hdc_permute_preserves_hamming (temp : ptr) (m : mem) (a b : ptr)
    (shifts : Z) :
  mem_wf m → temp ≠ a → temp ≠ b → a ≠ b → 0 ≤ shifts < 256 →
  ∃ m1 m2,
    hdc_permute temp m a shifts = Some m1 ∧
    hdc_permute temp m1 b shifts = Some m2 ∧
    hdc_hamming m2 a b = hdc_hamming m a b ∧
    hdc_similarity m2 a b = hdc_similarity m a b.
Proof.
  intros Hm Hta Htb Hab Hs.
  destruct (hdc_permute_bits temp m a shifts Hm Hta Hs)
    as (m1 & E1 & Hw1 & F1 & B1).
  destruct (hdc_permute_bits temp m1 b shifts Hw1 Htb Hs)
    as (m2 & E2 & Hw2 & F2 & B2).
  assert (hdc_hamming m2 a b = hdc_hamming m a b) as E.
  { rewrite (hdc_hamming_bits m2 a b Hw2), (hdc_hamming_bits m a b Hm).
    unfold hamming_bits, HV_DIMENSIONS.
    rewrite <- (zsum_rot 128 (shifts mod 128)
                  (λ k, Z.b2z (xorb (hv_bit (m2 a) k) (hv_bit (m2 b) k))))
      by (apply Z.mod_pos_bound; lia).
    apply zsum_ext. intros k Hk. simpl.
    rewrite Z.add_mod_idemp_r by lia.
    rewrite (F2 a), B1, B2, (F1 b) by (done || lia). done. }
  exists m1, m2. split_and!; [done | done | done |].
  unfold hdc_similarity. by rewrite E.
Qed.

Lemma hdc_permute_preserves_hamming_witness :
  mem_wf mem_sample ∧ (2 ≠ 0)%nat ∧ (2 ≠ 1)%nat ∧ (0 ≠ 1)%nat ∧ 0 ≤ 37 < 256 ∧
  ∃ m1 m2,
    hdc_permute 2%nat mem_sample 0%nat 37 = Some m1 ∧
    hdc_permute 2%nat m1 1%nat 37 = Some m2 ∧
    hdc_hamming m2 0%nat 1%nat = hdc_hamming mem_sample 0%nat 1%nat ∧
    hdc_similarity m2 0%nat 1%nat = hdc_similarity mem_sample 0%nat 1%nat.
Proof.
  refine (conj mem_sample_wf (conj _ (conj _ (conj _ (conj _
    (hdc_permute_preserves_hamming 2%nat mem_sample 0%nat 1%nat 37
       mem_sample_wf _ _ _ _)))))); lia.
Defined.

(** X16.  Permutation distributes over binding: permuting [a XOR b] gives
    what binding the permuted [a] with the permuted [b] gives. *)
Theorem hdc_permute_xor (temp : ptr) (m : mem) (a b r r' : ptr) (shifts : Z) :
  mem_wf m → temp ≠ a → temp ≠ b → temp ≠ r → a ≠ b → 0 ≤ shifts < 256 →
  ∃ m1 m2 m3,
    hdc_permute temp (hdc_xor m r a b) r shifts = Some m1 ∧
    hdc_permute temp m a shifts = Some m2 ∧
    hdc_permute temp m2 b shifts = Some m3 ∧
    m1 r = hdc_xor m3 r' a b r'.
Proof.
  intros Hm Hta Htb Htr Hab Hs.
  pose proof (hdc_xor_wf m r a b Hm) as Hwx.
  destruct (hdc_permute_back temp (hdc_xor m r a b) r shifts Hwx Htr Hs)
    as (m1 & E1 & Hw1 & _ & B1).
  destruct (hdc_permute_back temp m a shifts Hm Hta Hs)
    as (m2 & E2 & Hw2 & F2 & B2).
  destruct (hdc_permute_back temp m2 b shifts Hw2 Htb Hs)
    as (m3 & E3 & Hw3 & F3 & B3).
  exists m1, m2, m3. split_and!; [done | done | done |].
  apply mem_bits_eq; [done | by apply hdc_xor_wf |]. intros j Hj.
  rewrite B1 by done.
  rewrite (hdc_xor_bits m r a b) by (done || apply Z.mod_pos_bound; lia).
  rewrite (hdc_xor_bits m3 r' a b j Hw3 Hj).
  rewrite (F3 a), B2, B3, (F2 b) by (done || lia). done.
Qed.

Lemma hdc_permute_xor_witness :
  mem_wf mem_sample ∧ (2 ≠ 0)%nat ∧ (2 ≠ 1)%nat ∧ (2 ≠ 3)%nat ∧ (0 ≠ 1)%nat ∧
  0 ≤ 37 < 256 ∧
  ∃ m1 m2 m3,
    hdc_permute 2%nat (hdc_xor mem_sample 3%nat 0%nat 1%nat) 3%nat 37 = Some m1 ∧
    hdc_permute 2%nat mem_sample 0%nat 37 = Some m2 ∧
    hdc_permute 2%nat m2 1%nat 37 = Some m3 ∧
    m1 3%nat = hdc_xor m3 4%nat 0%nat 1%nat 4%nat.
Proof.
  refine (conj mem_sample_wf (conj _ (conj _ (conj _ (conj _ (conj _
    (hdc_permute_xor 2%nat mem_sample 0%nat 1%nat 3%nat 4%nat 37
       mem_sample_wf _ _ _ _ _))))))); lia.
Defined.

(** ** Thermometer codes *)

Lemma thermo_level_mono v1 v2 max_value :
  0 ≤ v1 → v1 ≤ v2 → 0 < max_value →
  thermo_level v1 max_value ≤ thermo_level v2 max_value.
Proof.
  intros H0 H12 Hmax. unfold thermo_level, HV_DIMENSIONS, THERMO_LEVELS.
  repeat case_decide; try lia.
  - pose proof (thermo_level_below v1 max_value). lia.
  - apply Z.div_le_mono; lia.
Qed.

(** Two thermometer patterns differ at the positions between their levels. *)
Lemma zsum_xor_below n l1 l2 :
  0 ≤ l1 ≤ n → 0 ≤ l2 ≤ n →
  zsum n (λ k, Z.b2z (xorb (k <? l1) (k <? l2))) = Z.abs (l1 - l2).
Proof.
  intros H1 H2.
  enough (zsum n (λ k, Z.b2z (xorb (k <? l1) (k <? l2)))
          + zsum n (λ k, Z.b2z (k <? Z.min l1 l2))
          = zsum n (λ k, Z.b2z (k <? Z.max l1 l2))) as H.
  { rewrite !zsum_below in H by lia. lia. }
  rewrite <- zsum_plus by lia. apply zsum_ext. intros k Hk.
  destruct (Z.ltb_spec k l1), (Z.ltb_spec k l2),
    (Z.ltb_spec k (Z.min l1 l2)), (Z.ltb_spec k (Z.max l1 l2)); simpl; lia.
Qed.

(** Two floors differ by at most one more than the floor of the
    difference. *)
Lemma div_sub_le a b c :
  0 < c → b ≤ a → a / c - b / c ≤ (a - b) / c + 1.
Proof.
  intros Hc Hab.
  pose proof (Z.div_mod a c ltac:(lia)). pose proof (Z.mod_pos_bound a c Hc).
  pose proof (Z.div_mod b c ltac:(lia)). pose proof (Z.mod_pos_bound b c Hc).
  pose proof (Z.div_mod (a - b) c ltac:(lia)).
  pose proof (Z.mod_pos_bound (a - b) c Hc).
  nia.
Qed.

(** The codes of two values, written one after the other into two
    buffers. *)
Lemma hdc_encode_thermometer_pair (m : mem) hv1 hv2 v1 v2 max_value :
  mem_wf m → hv1 ≠ hv2 →
  0 ≤ v1 < 65536 → 0 ≤ v2 < 65536 → 0 ≤ max_value < 65536 →
  ∃ m1 m2,
    hdc_encode_thermometer m hv1 v1 max_value = Some m1 ∧
    hdc_encode_thermometer m1 hv2 v2 max_value = Some m2 ∧
    mem_wf m2 ∧
    (∀ k, 0 ≤ k < 128 → hv_bit (m2 hv1) k = (k <? thermo_level v1 max_value)) ∧
    (∀ k, 0 ≤ k < 128 → hv_bit (m2 hv2) k = (k <? thermo_level v2 max_value)).
Proof.
  intros Hm Hne H1 H2 Hmax.
  destruct (hdc_encode_thermometer_bits m hv1 v1 max_value Hm H1 Hmax)
    as (m1 & E1 & Hw1 & _ & B1).
  destruct (hdc_encode_thermometer_bits m1 hv2 v2 max_value Hw1 H2 Hmax)
    as (m2 & E2 & Hw2 & F2 & B2).
  exists m1, m2. split_and!; [done | done | done | | done].
  intros k Hk. rewrite (F2 hv1) by done. by apply B1.
Qed.

(** X17.  Thermometer codes preserve closeness: the Hamming distance of the
    codes of two values is the difference of their levels, which for values up
    to [max_value] is at most [floor (|v1 - v2| * 128 / max_value) + 1]. *)
Theorem hdc_encode_thermometer_distance (m : mem) (hv1 hv2 : ptr)
    (v1 v2 max_value : Z) :
  mem_wf m → hv1 ≠ hv2 →
  0 ≤ v1 < 65536 → 0 ≤ v2 < 65536 → 0 < max_value < 65536 →
  ∃ m1 m2,
    hdc_encode_thermometer m hv1 v1 max_value = Some m1 ∧
    hdc_encode_thermometer m1 hv2 v2 max_value = Some m2 ∧
    hdc_hamming m2 hv1 hv2
      = Z.abs (thermo_level v1 max_value - thermo_level v2 max_value) ∧
    (v1 ≤ max_value → v2 ≤ max_value →
     hdc_hamming m2 hv1 hv2 ≤ Z.abs (v1 - v2) * 128 / max_value + 1).
Proof.
  intros Hm Hne H1 H2 Hmax.
  destruct (hdc_encode_thermometer_pair m hv1 hv2 v1 v2 max_value)
    as (m1 & m2 & E1 & E2 & Hw & B1 & B2); [done | done | done | done | lia |].
  assert (hdc_hamming m2 hv1 hv2
          = Z.abs (thermo_level v1 max_value - thermo_level v2 max_value)) as E.
  { rewrite (hdc_hamming_bits m2 hv1 hv2 Hw). unfold hamming_bits, HV_DIMENSIONS.
    rewrite <- (zsum_xor_below 128)
      by (apply thermo_level_bounds; lia).
    apply zsum_ext. intros k Hk. by rewrite B1, B2. }
  exists m1, m2. split_and!; [done | done | done |].
  intros Hv1 Hv2. rewrite E.
  assert (∀ v, 0 ≤ v ≤ max_value → thermo_level v max_value = v * 128 / max_value)
    as Hl.
  { intros v Hv. unfold thermo_level, HV_DIMENSIONS, THERMO_LEVELS.
    case_decide; [| done]. replace v with max_value by lia.
    rewrite Z.mul_comm, Z.div_mul; lia. }
  rewrite !Hl by lia.
  destruct (Z.le_ge_cases v1 v2).
  - pose proof (Z.div_le_mono (v1 * 128) (v2 * 128) max_value ltac:(lia) ltac:(lia)).
    pose proof (div_sub_le (v2 * 128) (v1 * 128) max_value ltac:(lia) ltac:(lia)).
    replace (Z.abs (v1 - v2) * 128) with (v2 * 128 - v1 * 128) by lia. lia.
  - pose proof (Z.div_le_mono (v2 * 128) (v1 * 128) max_value ltac:(lia) ltac:(lia)).
    pose proof (div_sub_le (v1 * 128) (v2 * 128) max_value ltac:(lia) ltac:(lia)).
    replace (Z.abs (v1 - v2) * 128) with (v1 * 128 - v2 * 128) by lia. lia.
Qed.

Lemma hdc_encode_thermometer_distance_witness :
  mem_wf mem_sample ∧ (0 ≠ 1)%nat ∧
  0 ≤ 500 < 65536 ∧ 0 ≤ 510 < 65536 ∧ 0 < 1024 < 65536 ∧
  ∃ m1 m2,
    hdc_encode_thermometer mem_sample 0%nat 500 1024 = Some m1 ∧
    hdc_encode_thermometer m1 1%nat 510 1024 = Some m2 ∧
    hdc_hamming m2 0%nat 1%nat
      = Z.abs (thermo_level 500 1024 - thermo_level 510 1024) ∧
    (500 ≤ 1024 → 510 ≤ 1024 →
     hdc_hamming m2 0%nat 1%nat ≤ Z.abs (500 - 510) * 128 / 1024 + 1).
Proof.
  refine (conj mem_sample_wf (conj _ (conj _ (conj _ (conj _
    (hdc_encode_thermometer_distance mem_sample 0%nat 1%nat 500 510 1024
       mem_sample_wf _ _ _ _)))))); lia.
Defined.

(** X18.  Thermometer codes are nested: the code of the smaller value is
    contained in the code of the larger.  Their AND is the code of the
    smaller, their OR is the code of the larger, and bundling the code of the
    smaller into the code of the larger changes nothing. *)
Theorem hdc_encode_thermometer_nested (m : mem) (hv1 hv2 r : ptr)
    (v1 v2 max_value : Z) :
  mem_wf m → hv1 ≠ hv2 →
  0 ≤ v1 → v1 ≤ v2 → v2 < 65536 → 0 < max_value < 65536 →
  ∃ m1 m2,
    hdc_encode_thermometer m hv1 v1 max_value = Some m1 ∧
    hdc_encode_thermometer m1 hv2 v2 max_value = Some m2 ∧
    hdc_and m2 r hv1 hv2 r = m2 hv1 ∧
    hdc_or m2 r hv1 hv2 r = m2 hv2 ∧
    hdc_bundle m2 hv2 hv1 hv2 = m2 hv2.
Proof.
  intros Hm Hne H0 H12 H2 Hmax.
  destruct (hdc_encode_thermometer_pair m hv1 hv2 v1 v2 max_value)
    as (m1 & m2 & E1 & E2 & Hw & B1 & B2); [done | done | lia | lia | lia |].
  pose proof (thermo_level_mono v1 v2 max_value H0 H12 ltac:(lia)) as Hl.
  assert (∀ k, (k <? thermo_level v1 max_value)
               && (k <? thermo_level v2 max_value)
               = (k <? thermo_level v1 max_value)) as Hand.
  { intros k. destruct (Z.ltb_spec k (thermo_level v1 max_value)),
      (Z.ltb_spec k (thermo_level v2 max_value)); (done || lia). }
  assert (∀ k, (k <? thermo_level v1 max_value)
               || (k <? thermo_level v2 max_value)
               = (k <? thermo_level v2 max_value)) as Hor.
  { intros k. destruct (Z.ltb_spec k (thermo_level v1 max_value)),
      (Z.ltb_spec k (thermo_level v2 max_value)); (done || lia). }
  exists m1, m2. split_and!; [done | done | | |].
  - apply mem_bits_eq; [by apply hdc_and_wf | done |]. intros k Hk.
    by rewrite (hdc_and_bits m2 r hv1 hv2 k Hw Hk), B1, B2, Hand.
  - apply mem_bits_eq; [by apply hdc_or_wf | done |]. intros k Hk.
    by rewrite (hdc_or_bits m2 r hv1 hv2 k Hw Hk), B1, B2, Hor.
  - apply mem_bits_eq; [by apply hdc_bundle_wf | done |]. intros k Hk.
    rewrite (hdc_bundle_bits m2 hv2 hv1 k Hw Hk), B1, B2 by done.
    rewrite orb_comm. apply Hor.
Qed.

Lemma hdc_encode_thermometer_nested_witness :
  mem_wf mem_sample ∧ (0 ≠ 1)%nat ∧
  0 ≤ 100 ∧ 100 ≤ 900 ∧ 900 < 65536 ∧ 0 < 1024 < 65536 ∧
  ∃ m1 m2,
    hdc_encode_thermometer mem_sample 0%nat 100 1024 = Some m1 ∧
    hdc_encode_thermometer m1 1%nat 900 1024 = Some m2 ∧
    hdc_and m2 2%nat 0%nat 1%nat 2%nat = m2 0%nat ∧
    hdc_or m2 2%nat 0%nat 1%nat 2%nat = m2 1%nat ∧
    hdc_bundle m2 1%nat 0%nat 1%nat = m2 1%nat.
Proof.
  refine (conj mem_sample_wf (conj _ (conj _ (conj _ (conj _ (conj _
    (hdc_encode_thermometer_nested mem_sample 0%nat 1%nat 2%nat 100 900 1024
       mem_sample_wf _ _ _ _ _))))))); lia.
Defined.

(** X19.  [hdc_encode_adc] is defined for every 16-bit reading and writes
    only its output buffer.  Below 1023 the code has
    [floor (adc_value * 128 / 1023)] set bits, at most 127, and none for the
    readings 0 to 7; from 1023 on, the error marker 0xFFFF of a timed-out
    conversion included, it is the all-ones vector. *)
Theorem hdc_encode_adc_levels (m : mem) (hv : ptr) (adc_value : Z) :
  mem_wf m → 0 ≤ adc_value < 65536 →
  ∃ m', hdc_encode_adc m hv adc_value = Some m' ∧
    (∀ q, q ≠ hv → m' q = m q) ∧
    (adc_value < 1023 →
       hdc_popcount m' hv = adc_value * 128 / 1023 ∧ hdc_popcount m' hv ≤ 127) ∧
    (m' hv = hv_zero ↔ adc_value ≤ 7) ∧
    (m' hv = hv_ones ↔ 1023 ≤ adc_value).
Proof.
  intros Hm Hv. unfold hdc_encode_adc.
  destruct (hdc_encode_thermometer_bits m hv adc_value ADC_MAX Hm Hv)
    as (m' & E & Hwf & Hfr & Hb); [unfold ADC_MAX; lia |].
  destruct (hdc_encode_thermometer_popcount m hv adc_value ADC_MAX Hm Hv)
    as (m'' & E' & Hp); [unfold ADC_MAX; lia |].
  rewrite E in E'. injection E' as <-.
  unfold thermo_level, ADC_MAX, HV_DIMENSIONS, THERMO_LEVELS in *.
  pose proof (count_bits_bounds (m' hv)) as Hcb.
  assert (m' hv = hv_zero ↔ hdc_popcount m' hv = 0) as Hz.
  { rewrite (hdc_popcount_count_bits m' hv Hwf). unfold count_bits, HV_DIMENSIONS.
    rewrite (zsum_b2z_none 128 (hv_bit (m' hv))) by lia. split.
    - intros -> k Hk. by apply hv_bit_zero.
    - intros H. apply hv_bits_eq; [apply Hwf | apply hv_zero_wf |].
      intros k Hk. by rewrite H, hv_bit_zero. }
  assert (m' hv = hv_ones ↔ hdc_popcount m' hv = 128) as Ho.
  { rewrite (hdc_popcount_count_bits m' hv Hwf). unfold count_bits, HV_DIMENSIONS.
    rewrite (zsum_b2z_all 128 (hv_bit (m' hv))) by lia. split.
    - intros -> k Hk. by apply hv_bit_ones.
    - intros H. apply hv_bits_eq; [apply Hwf | apply hv_ones_wf |].
      intros k Hk. by rewrite H, hv_bit_ones. }
  exists m'. split_and!; [done | done | | |].
  - intros Hlt. rewrite decide_False in Hp by lia. split; [done |].
    rewrite Hp. pose proof (thermo_level_below adc_value 1023). lia.
  - rewrite Hz, Hp. case_decide; [lia |].
    split; intros H'; [| apply Z.div_small; lia].
    destruct (Z.le_gt_cases adc_value 7) as [|Hgt]; [done |].
    pose proof (Z.div_le_mono 1024 (adc_value * 128) 1023 ltac:(lia) ltac:(lia)) as Hd.
    change (1024 / 1023) with 1 in Hd. lia.
  - rewrite Ho, Hp. case_decide; [lia |].
    pose proof (thermo_level_below adc_value 1023). lia.
Qed.

Lemma hdc_encode_adc_levels_witness :
  mem_wf mem_sample ∧ 0 ≤ 512 < 65536 ∧
  ∃ m', hdc_encode_adc mem_sample 0%nat 512 = Some m' ∧
    (∀ q, q ≠ 0%nat → m' q = mem_sample q) ∧
    (512 < 1023 →
       hdc_popcount m' 0%nat = 512 * 128 / 1023 ∧ hdc_popcount m' 0%nat ≤ 127) ∧
    (m' 0%nat = hv_zero ↔ 512 ≤ 7) ∧
    (m' 0%nat = hv_ones ↔ 1023 ≤ 512).
Proof.
  refine (conj mem_sample_wf (conj _
    (hdc_encode_adc_levels mem_sample 0%nat 512 mem_sample_wf _))); lia.
Defined.

(** ** Multi-channel encoding *)

Lemma channels_snoc m values basis_vectors v :
  channels m (values ++ [v]) basis_vectors
  = channels m values basis_vectors
    ++ [(v, m (basis_vectors + length values)%nat)].
Proof.
  unfold channels. rewrite length_app. simpl.
  rewrite seq_app, fmap_app. simpl.
  rewrite zip_with_app by (by rewrite length_fmap, length_seq).
  done.
Qed.

(** X20.  [hdc_encode_multi_channel] writes its output and its scratch
    buffer only: the basis vectors, like every other buffer, are left as they
    were.  With no channel the output is the zero vector, whatever it held
    before. *)
Theorem hdc_encode_multi_channel_frame (temp : ptr) (m : mem) (result : ptr)
    (values : list Z) (num_channels : Z) (basis_vectors : ptr) :
  mem_wf m → temp ≠ result →
  0 ≤ num_channels < 256 → Z.of_nat (length values) = num_channels →
  Forall (λ v, 0 ≤ v < 65536) values →
  (∀ ch, (ch < length values)%nat →
     (basis_vectors + ch)%nat ≠ temp ∧ (basis_vectors + ch)%nat ≠ result) →
  ∃ m', hdc_encode_multi_channel temp m result values num_channels basis_vectors
          = Some m' ∧
    (∀ q, q ≠ temp → q ≠ result → m' q = m q) ∧
    (∀ ch, (ch < length values)%nat →
       m' (basis_vectors + ch)%nat = m (basis_vectors + ch)%nat) ∧
    (num_channels = 0 → m' result = hv_zero).
Proof.
  intros Hm Htr Hn Hlen Hvals Hdisj.
  destruct (hdc_encode_multi_channel_bits temp m result values num_channels
              basis_vectors Hm Htr Hn Hlen Hvals Hdisj)
    as (m' & E & Hwf & Hfr & Hb).
  exists m'. split_and!; [done | done | |].
  - intros ch Hch. destruct (Hdisj ch Hch). by apply Hfr.
  - intros H0. apply hv_bits_eq; [apply Hwf | apply hv_zero_wf |].
    intros k Hk. rewrite Hb, hv_bit_zero by done.
    destruct values; [done | simpl in Hlen; lia].
Qed.

Lemma hdc_encode_multi_channel_frame_witness :
  mem_wf mem_channels ∧ (1 ≠ 0)%nat ∧ 0 ≤ 2 < 256 ∧
  Z.of_nat (length [256; 768]) = 2 ∧
  Forall (λ v, 0 ≤ v < 65536) [256; 768] ∧
  (∀ ch, (ch < length [256; 768])%nat →
     (2 + ch)%nat ≠ 1%nat ∧ (2 + ch)%nat ≠ 0%nat) ∧
  ∃ m', hdc_encode_multi_channel 1%nat mem_channels 0%nat [256; 768] 2 2%nat
          = Some m' ∧
    (∀ q, q ≠ 1%nat → q ≠ 0%nat → m' q = mem_channels q) ∧
    (∀ ch, (ch < length [256; 768])%nat →
       m' (2 + ch)%nat = mem_channels (2 + ch)%nat) ∧
    (2 = 0 → m' 0%nat = hv_zero).
Proof.
  assert (Forall (λ v, 0 ≤ v < 65536) [256; 768]) as H1
    by (repeat constructor; lia).
  assert (∀ ch, (ch < length [256; 768])%nat →
     (2 + ch)%nat ≠ 1%nat ∧ (2 + ch)%nat ≠ 0%nat) as H2 by (simpl; lia).
  refine (conj mem_channels_wf (conj _ (conj _ (conj _ (conj H1 (conj H2
    (hdc_encode_multi_channel_frame 1%nat mem_channels 0%nat [256; 768] 2 2%nat
       mem_channels_wf _ _ _ H1 H2))))))); (lia || reflexivity).
Defined.



(** X22.  A further channel only adds bits to the output: every bit set in
    the output of the first [n] channels is set in the output of [n + 1]
    channels, whose population count is no smaller; a further channel that
    repeats one of the first [n] (same reading, same basis vector) changes
    nothing. *)
Theorem hdc_encode_multi_channel_extend (temp : ptr) (m : mem) (result : ptr)
    (values : list Z) (v : Z) (n : Z) (basis_vectors : ptr) :
  mem_wf m → temp ≠ result →
  0 ≤ n < 255 → Z.of_nat (length values) = n →
  Forall (λ v, 0 ≤ v < 65536) values → 0 ≤ v < 65536 →
  (∀ ch, (ch ≤ length values)%nat →
     (basis_vectors + ch)%nat ≠ temp ∧ (basis_vectors + ch)%nat ≠ result) →
  ∃ m1 m2,
    hdc_encode_multi_channel temp m result values n basis_vectors = Some m1 ∧
    hdc_encode_multi_channel temp m result (values ++ [v]) (n + 1) basis_vectors
      = Some m2 ∧
    (∀ k, 0 ≤ k < 128 →
       hv_bit (m1 result) k = true → hv_bit (m2 result) k = true) ∧
    hdc_popcount m1 result ≤ hdc_popcount m2 result ∧
    ((v, m (basis_vectors + length values)%nat)
       ∈ channels m values basis_vectors →
     m2 result = m1 result).
Proof.
  intros Hm Htr Hn Hlen Hvals Hv Hdisj.
  destruct (hdc_encode_multi_channel_bits temp m result values n basis_vectors)
    as (m1 & E1 & Hw1 & _ & B1); try done.
  { lia. }
  { intros ch Hch. apply Hdisj. lia. }
  destruct (hdc_encode_multi_channel_bits temp m result (values ++ [v]) (n + 1)
              basis_vectors) as (m2 & E2 & Hw2 & _ & B2); try done.
  { lia. }
  { rewrite length_app. simpl. lia. }
  { apply Forall_app. split; [done | by apply Forall_singleton]. }
  { intros ch Hch. rewrite length_app in Hch. simpl in Hch. apply Hdisj. lia. }
  assert (∀ k, 0 ≤ k < 128 →
            hv_bit (m2 result) k
            = hv_bit (m1 result) k
              || xorb (k <? thermo_level v ADC_MAX)
                      (hv_bit (m (basis_vectors + length values)%nat) k)) as B.
  { intros k Hk. by rewrite B2, B1, channels_snoc, bundle_bit_snoc. }
  assert (∀ k, 0 ≤ k < 128 →
            hv_bit (m1 result) k = true → hv_bit (m2 result) k = true) as Hsub.
  { intros k Hk Hb. by rewrite B, Hb. }
  exists m1, m2. split_and!; [done | done | done | |].
  - rewrite (hdc_popcount_count_bits m1 result Hw1),
      (hdc_popcount_count_bits m2 result Hw2).
    by apply count_bits_le.
  - intros Hin. apply mem_bits_eq; [done | done |]. intros k Hk.
    rewrite B by done.
    destruct (xorb (k <? thermo_level v ADC_MAX)
                (hv_bit (m (basis_vectors + length values)%nat) k)) eqn:Ex;
      [| apply orb_false_r].
    rewrite orb_true_r. symmetry. rewrite B1 by done.
    unfold bundle_bit. apply existsb_exists.
    exists (v, m (basis_vectors + length values)%nat).
    split; [by apply list_elem_of_In | done].
Qed.

Lemma hdc_encode_multi_channel_extend_witness :
  mem_wf mem_channels ∧ (1 ≠ 0)%nat ∧ 0 ≤ 1 < 255 ∧
  Z.of_nat (length [256]) = 1 ∧
  Forall (λ v, 0 ≤ v < 65536) [256] ∧ 0 ≤ 768 < 65536 ∧
  (∀ ch, (ch ≤ length [256])%nat →
     (2 + ch)%nat ≠ 1%nat ∧ (2 + ch)%nat ≠ 0%nat) ∧
  ∃ m1 m2,
    hdc_encode_multi_channel 1%nat mem_channels 0%nat [256] 1 2%nat = Some m1 ∧
    hdc_encode_multi_channel 1%nat mem_channels 0%nat ([256] ++ [768]) (1 + 1)
      2%nat = Some m2 ∧
    (∀ k, 0 ≤ k < 128 →
       hv_bit (m1 0%nat) k = true → hv_bit (m2 0%nat) k = true) ∧
    hdc_popcount m1 0%nat ≤ hdc_popcount m2 0%nat ∧
    ((768, mem_channels (2 + length [256])%nat)
       ∈ channels mem_channels [256] 2 →
     m2 0%nat = m1 0%nat).
Proof.
  assert (Forall (λ v, 0 ≤ v < 65536) [256]) as H1
    by (repeat constructor; lia).
  assert (∀ ch, (ch ≤ length [256])%nat →
     (2 + ch)%nat ≠ 1%nat ∧ (2 + ch)%nat ≠ 0%nat) as H2 by (simpl; lia).
  refine (conj mem_channels_wf (conj _ (conj _ (conj _ (conj H1 (conj _ (conj H2
    (hdc_encode_multi_channel_extend 1%nat mem_channels 0%nat [256] 768 1 2%nat
       mem_channels_wf _ _ _ H1 _ H2)))))))); (lia || reflexivity).
Defined.

(** ** Bipolar encoding *)

Lemma int_sub_in_range int_bits a b :
  - 2 ^ (int_bits - 1) ≤ a - b < 2 ^ (int_bits - 1) →
  int_sub int_bits a b = Some (a - b).
Proof. intros H. unfold int_sub. by rewrite decide_True. Qed.

Lemma u16_small x : 0 ≤ x < 65536 → u16 x = x.
Proof. intros. unfold u16. apply Z.mod_small. lia. Qed.

(** X23.  For a reading within its range, [hdc_encode_bipolar] writes the
    thermometer code of the reading's offset from [min_val] over the span
    [max_val - min_val]: [floor ((value - min_val) * 128 / (max_val - min_val))]
    set bits, none at [min_val] and all 128 at [max_val].  The span has to
    fit in an [int], which on a 16-bit platform means at most 32767. *)
Theorem hdc_encode_bipolar_in_range (int_bits : Z) (m : mem) (hv : ptr)
    (value min_val max_val : Z) :
  mem_wf m → 16 ≤ int_bits →
  -32768 ≤ min_val → min_val ≤ value → value ≤ max_val → max_val ≤ 32767 →
  min_val < max_val → max_val - min_val < 2 ^ (int_bits - 1) →
  ∃ m',
    hdc_encode_bipolar int_bits m hv value min_val max_val = Some m' ∧
    hdc_encode_thermometer m hv (value - min_val) (max_val - min_val) = Some m' ∧
    hdc_popcount m' hv = (value - min_val) * 128 / (max_val - min_val) ∧
    (value = min_val → m' hv = hv_zero) ∧
    (value = max_val → m' hv = hv_ones).
Proof.
  intros Hm Hw Hmin Hlo Hhi Hmax Hlt Hfit. unfold hdc_encode_bipolar.
  set (P := 2 ^ (int_bits - 1)) in *.
  rewrite (int_sub_in_range int_bits max_val min_val) by (fold P; lia). simpl.
  rewrite (int_sub_in_range int_bits value min_val) by (fold P; lia). simpl.
  rewrite !u16_small by lia.
  set (s := value - min_val). set (d := max_val - min_val).
  assert (0 ≤ s < 65536) as Hs by (subst s; lia).
  assert (0 < d < 65536) as Hd by (subst d; lia).
  destruct (hdc_encode_thermometer_bits m hv s d Hm Hs ltac:(lia))
    as (m' & E & Hwf & _ & Hb).
  destruct (hdc_encode_thermometer_popcount m hv s d Hm Hs ltac:(lia))
    as (m'' & E' & Hp).
  rewrite E in E'. injection E' as <-.
  unfold thermo_level, HV_DIMENSIONS, THERMO_LEVELS in *.
  exists m'. split_and!; [done | done | | |].
  - rewrite Hp. case_decide; [| done].
    replace s with d by (subst s d; lia). rewrite Z.mul_comm, Z.div_mul; lia.
  - intros Ev. apply hv_bits_eq; [apply Hwf | apply hv_zero_wf |].
    intros k Hk. rewrite Hb, hv_bit_zero, decide_False by (subst s d; lia).
    replace s with 0 by (subst s; lia). apply Z.ltb_ge.
    rewrite Z.mul_0_l, Z.div_0_l by lia. lia.
  - intros Ev. apply hv_bits_eq; [apply Hwf | apply hv_ones_wf |].
    intros k Hk. rewrite Hb, hv_bit_ones, decide_True by (subst s d; lia).
    apply Z.ltb_lt. lia.
Qed.

Lemma hdc_encode_bipolar_in_range_witness :
  mem_wf mem_sample ∧ 16 ≤ 16 ∧
  -32768 ≤ -50 ∧ -50 ≤ 50 ∧ 50 ≤ 150 ∧ 150 ≤ 32767 ∧
  -50 < 150 ∧ 150 - (-50) < 2 ^ (16 - 1) ∧
  ∃ m',
    hdc_encode_bipolar 16 mem_sample 0%nat 50 (-50) 150 = Some m' ∧
    hdc_encode_thermometer mem_sample 0%nat (50 - (-50)) (150 - (-50)) = Some m' ∧
    hdc_popcount m' 0%nat = (50 - (-50)) * 128 / (150 - (-50)) ∧
    (50 = -50 → m' 0%nat = hv_zero) ∧
    (50 = 150 → m' 0%nat = hv_ones).
Proof.
  refine (conj mem_sample_wf (conj _ (conj _ (conj _ (conj _ (conj _ (conj _
    (conj _
    (hdc_encode_bipolar_in_range 16 mem_sample 0%nat 50 (-50) 150
       mem_sample_wf _ _ _ _ _ _ _))))))))); simpl; lia.
Defined.

(** X24.  A reading outside [min_val, max_val) is encoded as the all-ones
    vector, below the range as well as above it: the offset of a reading
    below [min_val] wraps to a large unsigned value, which saturates.  An
    empty range ([min_val = max_val]) encodes every reading as all ones and
    does not divide by zero. *)
Theorem hdc_encode_bipolar_saturates (int_bits : Z) (m : mem) (hv : ptr)
    (value min_val max_val : Z) :
  mem_wf m → 16 ≤ int_bits →
  -32768 ≤ value ≤ 32767 → -32768 ≤ min_val → min_val ≤ max_val →
  max_val ≤ 32767 →
  value < min_val ∨ max_val ≤ value →
  max_val - min_val < 2 ^ (int_bits - 1) →
  - 2 ^ (int_bits - 1) ≤ value - min_val < 2 ^ (int_bits - 1) →
  ∃ m',
    hdc_encode_bipolar int_bits m hv value min_val max_val = Some m' ∧
    m' hv = hv_ones.
Proof.
  intros Hm Hw Hv Hmin Hle Hmax Hout Hfit Hfit'. unfold hdc_encode_bipolar.
  rewrite (int_sub_in_range int_bits max_val min_val) by lia. simpl.
  rewrite (int_sub_in_range int_bits value min_val) by done. simpl.
  rewrite (u16_small (max_val - min_val)) by lia.
  assert (0 ≤ u16 (value - min_val) < 65536) as Hs
    by (apply Z.mod_pos_bound; lia).
  assert (max_val - min_val ≤ u16 (value - min_val)) as Hsat.
  { destruct Hout as [Hlo | Hhi].
    - unfold u16.
      replace (value - min_val) with (value - min_val + 65536 + (-1) * 65536)
        by lia.
      rewrite Z.mod_add, Z.mod_small by lia. lia.
    - rewrite u16_small by lia. lia. }
  destruct (hdc_encode_thermometer_bits m hv (u16 (value - min_val))
              (max_val - min_val) Hm Hs ltac:(lia)) as (m' & E & Hwf & _ & Hb).
  exists m'. split; [done |].
  apply hv_bits_eq; [apply Hwf | apply hv_ones_wf |]. intros k Hk.
  rewrite Hb, hv_bit_ones by done. unfold thermo_level, HV_DIMENSIONS.
  rewrite decide_True by done. apply Z.ltb_lt. lia.
Qed.

Lemma hdc_encode_bipolar_saturates_witness :
  mem_wf mem_sample ∧ 16 ≤ 16 ∧
  -32768 ≤ -101 ≤ 32767 ∧ -32768 ≤ -100 ∧ -100 ≤ 100 ∧ 100 ≤ 32767 ∧
  (-101 < -100 ∨ 100 ≤ -101) ∧
  100 - (-100) < 2 ^ (16 - 1) ∧
  - 2 ^ (16 - 1) ≤ -101 - (-100) < 2 ^ (16 - 1) ∧
  ∃ m',
    hdc_encode_bipolar 16 mem_sample 0%nat (-101) (-100) 100 = Some m' ∧
    m' 0%nat = hv_ones.
Proof.
  refine (conj mem_sample_wf (conj _ (conj _ (conj _ (conj _ (conj _ (conj _
    (conj _ (conj _
    (hdc_encode_bipolar_saturates 16 mem_sample 0%nat (-101) (-100) 100
       mem_sample_wf _ _ _ _ _ _ _ _)))))))))); simpl; lia.
Defined.

(** ** Copying *)

(** X25.  A copy is indistinguishable from its source: after
    [hdc_copy dest src] on distinct buffers the two are at Hamming distance 0
    and similarity 128 and [dest] has the population count [src] had.
    Clearing a buffer and bundling [src] into it leaves the same vector as
    the copy does. *)
Theorem hdc_copy_equal (m : mem) (dest src : ptr) :
  mem_wf m → dest ≠ src →
  ∃ m',
    hdc_copy m dest src = Some m' ∧
    hdc_hamming m' dest src = 0 ∧
    hdc_similarity m' dest src = 128 ∧
    hdc_popcount m' dest = hdc_popcount m src ∧
    hdc_bundle (hdc_clear m dest) dest src dest = m' dest.
Proof.
  intros Hm Hne.
  destruct (hdc_copy_spec m dest src Hm Hne) as (m' & E & Hwf & Hfr & Hd).
  assert (m' dest = m' src) as Eq by (rewrite Hd; symmetry; by apply Hfr).
  assert (hdc_hamming m' dest src = 0) as Hh.
  { rewrite (hdc_hamming_bits m' dest src Hwf).
    by apply (hamming_bits_zero m' dest src Hwf). }
  exists m'. split_and!; [done | done | | |].
  - unfold hdc_similarity. by rewrite Hh.
  - rewrite (hdc_popcount_count_bits m' dest Hwf),
      (hdc_popcount_count_bits m src Hm). by rewrite Hd.
  - destruct (hdc_clear_spec m dest Hm) as (Hwc & Hfc & Hz).
    apply mem_bits_eq; [by apply hdc_bundle_wf | done |]. intros k Hk.
    rewrite (hdc_bundle_bits (hdc_clear m dest) dest src k Hwc Hk).
    rewrite Hz, (Hfc src) by done. rewrite hv_bit_zero by done.
    by rewrite Hd.
Qed.

Lemma hdc_copy_equal_witness :
  mem_wf mem_sample ∧ (2 ≠ 0)%nat ∧
  ∃ m',
    hdc_copy mem_sample 2%nat 0%nat = Some m' ∧
    hdc_hamming m' 2%nat 0%nat = 0 ∧
    hdc_similarity m' 2%nat 0%nat = 128 ∧
    hdc_popcount m' 2%nat = hdc_popcount mem_sample 0%nat ∧
    hdc_bundle (hdc_clear mem_sample 2%nat) 2%nat 0%nat 2%nat = m' 2%nat.
Proof.
  refine (conj mem_sample_wf (conj _
    (hdc_copy_equal mem_sample 2%nat 0%nat mem_sample_wf _))); lia.
Defined.
